(** * falco_rule_evaluator: expression-tree builder and evaluator

    A shallow embedding of [src/falco_rule_evaluator.py]: the [Node] and
    [Tree] classes, [eval_to_bool], [Tree.construct_tree] (a shunting-yard
    style builder working on two stacks), [Tree.evaluate] (a recursive
    evaluator) and [main] with its tokenizer, followed by the properties
    established about them.

    Conventions of the embedding:
    - a Python list used as a stack is a Rocq list whose HEAD is the top
      ([append] is cons, [pop()] removes the head, [stack[-1]] is the head);
    - a Python exception is the [Raise] outcome; [pop()] on an empty list
      raises [IndexError], a failed dictionary lookup raises [KeyError];
    - an event (a [dict] from field names to values) is a [gmap string string];
    - the recursion of [evaluate] is bounded by a fuel argument, the depth of
      the call stack; [OutOfFuel] is what is left when it does not suffice. *)

From stdpp Require Import base option list strings gmap.
From Stdlib Require Import Lia Ascii.

Open Scope string_scope.
Open Scope list_scope.
Set Warnings "-register-all".

(** ** Outcomes of a call *)

Inductive exn : Type :=
| IndexError   (* pop from an empty list, index out of range *)
| KeyError.    (* key absent from a dict *)

Inductive outcome (A : Type) : Type :=
| Ret (a : A)
| Raise (e : exn)
| OutOfFuel.

Arguments Ret {A} a.
Arguments Raise {A} e.
Arguments OutOfFuel {A}.

Definition obind {A B} (m : outcome A) (k : A -> outcome B) : outcome B :=
  match m with
  | Ret a => k a
  | Raise e => Raise e
  | OutOfFuel => OutOfFuel
  end.

#[global] Instance outcome_ret : MRet outcome := @Ret.
#[global] Instance outcome_bind : MBind outcome := fun A B k m => obind m k.

(** ** Data model *)

(** An operand is the pair [(field, value)] made by the tokenizer. *)
Definition Operand : Type := string * string.

(** A token is a tuple (an operand) or any other value; the builder only
    compares the latter with the strings ["or"], ["and"], ["("] and [")"]. *)
Inductive Token : Type :=
| TOperand (o : Operand)
| TStr (s : string).

(** The [data] attribute of a node: the operand tuple of a leaf, or the string
    popped from the operator stack. *)
Inductive Data : Type :=
| DOperand (o : Operand)
| DStr (s : string).

(** [class Node]: [data], and the optional children [left] and [right]
    ([None] when absent). *)
Inductive Node : Type :=
| mkNode (data : Data) (left right : option Node).

Definition data (n : Node) : Data := let 'mkNode d _ _ := n in d.
Definition left (n : Node) : option Node := let 'mkNode _ l _ := n in l.
Definition right (n : Node) : option Node := let 'mkNode _ _ r := n in r.

(** [Node.leaf_check]: [self.left is None and self.right is None]. *)
Definition leaf_check (n : Node) : bool :=
  match left n, right n with
  | None, None => true
  | _, _ => false
  end.

(** [class Tree]: a dataclass with the single attribute [root]. *)
Record Tree : Type := mkTree { root : option Node }.

(** An event: a dict from field names to values. *)
Abbreviation Event := (gmap string string).

#[global] Instance exn_eq_dec : EqDecision exn.
Proof. solve_decision. Defined.
#[global] Instance Token_eq_dec : EqDecision Token.
Proof. solve_decision. Defined.
#[global] Instance Data_eq_dec : EqDecision Data.
Proof. solve_decision. Defined.

(** ** [eval_to_bool] *)

(** [data[0] in fes and data[1] == fes[data[0]]].  On an operand tuple the
    indices select the field and the value.  On a string they select its
    first and second characters, and raise [IndexError] when the string is
    too short; [and] evaluates [data[1]] only once [data[0]] is a key. *)
Definition eval_to_bool (d : Data) (fes : Event) : outcome bool :=
  match d with
  | DOperand (field, value) =>
      match fes !! field with
      | None => Ret false
      | Some v => Ret (bool_decide (value = v))
      end
  | DStr s =>
      match s with
      | EmptyString => Raise IndexError
      | String c0 s' =>
          match fes !! String c0 EmptyString with
          | None => Ret false
          | Some v =>
              match s' with
              | EmptyString => Raise IndexError
              | String c1 _ => Ret (bool_decide (String c1 EmptyString = v))
              end
          end
      end
  end.

(** ** [Tree.construct_tree] *)

(** [list.pop()]. *)
Definition pop {A} (stack : list A) : outcome (A * list A) :=
  match stack with
  | [] => Raise IndexError
  | x :: stack' => Ret (x, stack')
  end.

(** The reduction written three times in the source (lines 65-74, 80-89 and
    97-106): pop [right], pop [operator], pop [left], push the new node. *)
Definition reduce (operator_stack : list string) (operand_stack : list Node)
  : outcome (list string * list Node) :=
  '(right_, operand_stack) ← pop operand_stack;
  '(operator, operator_stack) ← pop operator_stack;
  '(left_, operand_stack) ← pop operand_stack;
  Ret (operator_stack,
       mkNode (DStr operator) (Some left_) (Some right_) :: operand_stack).

(** The same reduction once the loop guard has read the top [operator] of a
    non-empty operator stack: only the operand stack can underflow. *)
Definition reduce_top (operator : string) (operand_stack : list Node)
  : outcome (list Node) :=
  '(right_, operand_stack) ← pop operand_stack;
  '(left_, operand_stack) ← pop operand_stack;
  Ret (mkNode (DStr operator) (Some left_) (Some right_) :: operand_stack).

(** The loop of the [")"] branch, lines 79-89: reduce while the operator
    stack is not empty and its top is not ["("].  Every iteration removes one
    operator, so the loop is a structural recursion on the operator stack. *)
Fixpoint reduce_to_paren (operator_stack : list string) (operand_stack : list Node)
  : outcome (list string * list Node) :=
  match operator_stack with
  | [] => Ret ([], operand_stack)
  | top :: operator_stack' =>
      if bool_decide (top = "(") then Ret (operator_stack, operand_stack)
      else
        operand_stack ← reduce_top top operand_stack;
        reduce_to_paren operator_stack' operand_stack
  end.

(** The [")"] branch, lines 78-90: the loop, then [operator_stack.pop()]. *)
Definition close_paren (operator_stack : list string) (operand_stack : list Node)
  : outcome (list string * list Node) :=
  '(operator_stack, operand_stack) ← reduce_to_paren operator_stack operand_stack;
  '(_, operator_stack) ← pop operator_stack;
  Ret (operator_stack, operand_stack).

(** The final loop, lines 96-106: reduce until the operator stack is empty. *)
Fixpoint empty_the_stack (operator_stack : list string) (operand_stack : list Node)
  : outcome (list Node) :=
  match operator_stack with
  | [] => Ret operand_stack
  | top :: operator_stack' =>
      operand_stack ← reduce_top top operand_stack;
      empty_the_stack operator_stack' operand_stack
  end.

(** One iteration of [for token in tokens], lines 51-93. *)
Definition process_token (token : Token)
    (operator_stack : list string) (operand_stack : list Node)
  : outcome (list string * list Node) :=
  match token with
  | TOperand o =>
      Ret (operator_stack, mkNode (DOperand o) None None :: operand_stack)
  | TStr s =>
      if bool_decide (s = "or") && bool_decide (head operator_stack = Some "and")
      then
        '(operator_stack, operand_stack) ← reduce operator_stack operand_stack;
        Ret (s :: operator_stack, operand_stack)
      else if bool_decide (s = ")") then
        close_paren operator_stack operand_stack
      else
        Ret (s :: operator_stack, operand_stack)
  end.

Fixpoint process_tokens (tokens : list Token)
    (operator_stack : list string) (operand_stack : list Node)
  : outcome (list string * list Node) :=
  match tokens with
  | [] => Ret (operator_stack, operand_stack)
  | token :: tokens' =>
      '(operator_stack, operand_stack) ←
         process_token token operator_stack operand_stack;
      process_tokens tokens' operator_stack operand_stack
  end.

Definition construct_tree (tokens : list Token) : outcome Tree :=
  '(operator_stack, operand_stack) ← process_tokens tokens [] [];
  operand_stack ← empty_the_stack operator_stack operand_stack;
  '(top, _) ← pop operand_stack;
  Ret (mkTree (Some top)).

(** ** [Tree.evaluate] *)

(** [evaluate] is a method: it can reach the tree through [self] and the
    event through [fes], both mutable Python objects.  A call is therefore a
    computation over the store holding these two objects, giving an outcome
    and the store it leaves behind. *)
Record Store : Type := mkStore { self : Tree; fes : Event }.

Definition Run (A : Type) : Type := Store -> outcome A * Store.

#[global] Instance Run_ret : MRet Run := fun A a st => (Ret a, st).
#[global] Instance Run_bind : MBind Run := fun A B k m st =>
  match m st with
  | (Ret a, st') => k a st'
  | (Raise e, st') => (Raise e, st')
  | (OutOfFuel, st') => (OutOfFuel, st')
  end.

Definition read_root : Run (option Node) := fun st => (Ret (root (self st)), st).
Definition read_fes : Run Event := fun st => (Ret (fes st), st).
Definition lift {A} (o : outcome A) : Run A := fun st => (o, st).

(** [process[node.data]]: the lookup in the dict of the two lambdas. *)
Definition process (d : Data) : outcome (bool -> bool -> bool) :=
  match d with
  | DStr s =>
      if bool_decide (s = "and") then Ret andb
      else if bool_decide (s = "or") then Ret orb
      else Raise KeyError
  | DOperand _ => Raise KeyError
  end.

(** [evaluate(self, fes, node=None)], lines 111-132.  A [Node] object is
    always truthy, so [node or self.root] is [node] unless [node] is [None].
    Both children are evaluated before [process] is consulted. *)
Fixpoint evaluate (fuel : nat) (node : option Node) : Run bool :=
  match fuel with
  | O => lift OutOfFuel
  | S fuel' =>
      self_root ← read_root;
      let node := match node with Some n => Some n | None => self_root end in
      match node with
      | None => mret false
      | Some n =>
          if leaf_check n then
            ev ← read_fes;
            lift (eval_to_bool (data n) ev)
          else
            x ← evaluate fuel' (left n);
            y ← evaluate fuel' (right n);
            f ← lift (process (data n));
            mret (f x y)
      end
  end.

(** The outcome of the call [tree.evaluate(fes)]. *)
Definition evaluate_tree (fuel : nat) (tree : Tree) (ev : Event) : outcome bool :=
  (evaluate fuel None (mkStore tree ev)).1.

(** ** Measures and shapes of trees *)

(** The nodes of the tree rooted at [n], [n] first. *)
Fixpoint subnodes (n : Node) : list Node :=
  match n with
  | mkNode _ l r =>
      n :: from_option subnodes [] l ++ from_option subnodes [] r
  end.

(** Number of nodes for which [leaf_check] answers true. *)
Fixpoint count_leaves (n : Node) : nat :=
  match n with
  | mkNode _ l r =>
      (if leaf_check n then 1 else 0)
      + from_option count_leaves 0 l + from_option count_leaves 0 r
  end.

(** Number of nodes for which [leaf_check] answers false. *)
Fixpoint count_internal (n : Node) : nat :=
  match n with
  | mkNode _ l r =>
      (if leaf_check n then 0 else 1)
      + from_option count_internal 0 l + from_option count_internal 0 r
  end.

(** Number of nodes on the longest branch. *)
Fixpoint height (n : Node) : nat :=
  match n with
  | mkNode _ l r => S (from_option height 0 l `max` from_option height 0 r)
  end.

(** No node has exactly one child. *)
Fixpoint full (n : Node) : Prop :=
  match n with
  | mkNode _ None None => True
  | mkNode _ (Some l) (Some r) => full l /\ full r
  | _ => False
  end.

(** The invariant of the data model, on one node. *)
Definition node_ok (n : Node) : Prop :=
  (leaf_check n = true <-> left n = None /\ right n = None) /\
  (leaf_check n = true -> exists o, data n = DOperand o) /\
  (leaf_check n = false ->
     (data n = DStr "and" \/ data n = DStr "or") /\
     is_Some (left n) /\ is_Some (right n)).

(** The same invariant on every node of a tree, by recursion. *)
Fixpoint well_formed (n : Node) : Prop :=
  match n with
  | mkNode (DOperand _) None None => True
  | mkNode (DStr s) (Some l) (Some r) =>
      (s = "and" \/ s = "or") /\ well_formed l /\ well_formed r
  | _ => False
  end.

(** The truth value of an operand against an event. *)
Definition operand_value (ev : Event) (o : Operand) : bool :=
  bool_decide (ev !! o.1 = Some o.2).

(** The value of a full tree, by recursion on the tree: what [evaluate]
    computes once its fuel covers the height (lemma [evaluate_denote]). *)
Fixpoint denote (ev : Event) (n : Node) : outcome bool :=
  match n with
  | mkNode d None None => eval_to_bool d ev
  | mkNode d (Some l) (Some r) =>
      x ← denote ev l;
      y ← denote ev r;
      f ← process d;
      Ret (f x y)
  | _ => OutOfFuel
  end.

(** ** Token sequences *)

Definition is_logical (s : string) : bool :=
  bool_decide (s = "and") || bool_decide (s = "or").

Definition count_if {A} (f : A -> bool) (l : list A) : nat :=
  length (List.filter f l).

Definition is_operand_token (t : Token) : bool :=
  match t with TOperand _ => true | TStr _ => false end.

Definition is_operator_token (t : Token) : bool :=
  match t with TOperand _ => false | TStr s => is_logical s end.

(** Number of operand tokens, and of ["and"]/["or"] tokens, of a sequence. *)
Definition operand_tokens (tokens : list Token) : nat :=
  count_if is_operand_token tokens.

Definition operator_tokens (tokens : list Token) : nat :=
  count_if is_operator_token tokens.

(** Syntactically valid infix sequences: an operand, two valid sequences
    joined by ["and"] or ["or"], or a valid sequence between parentheses. *)
Inductive valid_infix : list Token -> Prop :=
| valid_operand o :
    valid_infix [TOperand o]
| valid_binary l1 op l2 :
    valid_infix l1 -> op = "and" \/ op = "or" -> valid_infix l2 ->
    valid_infix (l1 ++ TStr op :: l2)
| valid_group l :
    valid_infix l ->
    valid_infix (TStr "(" :: l ++ [TStr ")"]).

(** A closing parenthesis is unmatched when the tokens before it do not hold
    more ["("] than [")"]. *)
Definition count_token (t : Token) (tokens : list Token) : nat :=
  count_if (fun t' => bool_decide (t' = t)) tokens.

Definition unmatched_close (tokens : list Token) : Prop :=
  exists pre post,
    tokens = pre ++ TStr ")" :: post /\
    count_token (TStr "(") pre <= count_token (TStr ")") pre.

(** ** The conventional reading of an infix sequence

    This part follows the specification, not the source: the expression a
    sequence denotes when ["and"] binds tighter than ["or"] within a
    parenthesis level and both operators associate to the left. *)

Inductive Expr : Type :=
| EOperand (o : Operand)
| EAnd (e1 e2 : Expr)
| EOr (e1 e2 : Expr).

Fixpoint eval_expr (ev : Event) (e : Expr) : bool :=
  match e with
  | EOperand o => operand_value ev o
  | EAnd e1 e2 => eval_expr ev e1 && eval_expr ev e2
  | EOr e1 e2 => eval_expr ev e1 || eval_expr ev e2
  end.

Inductive level : Type := LAtom | LConj | LDisj.

(** [reads lv tokens e]: [tokens] reads as [e] at level [lv]; a disjunction is
    a left-nested chain of conjunctions, a conjunction a left-nested chain of
    atoms, an atom an operand or a parenthesized disjunction. *)
Inductive reads : level -> list Token -> Expr -> Prop :=
| reads_operand o :
    reads LAtom [TOperand o] (EOperand o)
| reads_group l e :
    reads LDisj l e ->
    reads LAtom (TStr "(" :: l ++ [TStr ")"]) e
| reads_atom l e :
    reads LAtom l e -> reads LConj l e
| reads_and l1 e1 l2 e2 :
    reads LConj l1 e1 -> reads LAtom l2 e2 ->
    reads LConj (l1 ++ TStr "and" :: l2) (EAnd e1 e2)
| reads_conj l e :
    reads LConj l e -> reads LDisj l e
| reads_or l1 e1 l2 e2 :
    reads LDisj l1 e1 -> reads LConj l2 e2 ->
    reads LDisj (l1 ++ TStr "or" :: l2) (EOr e1 e2).

(** ** A scanner for valid sequences

    The state is whether an operand is expected next, and the number of
    parentheses still open.  It is used to carry the invariant of the
    builder along a valid sequence. *)

Definition scan_token (t : Token) (st : bool * nat) : option (bool * nat) :=
  let '(expect, depth) := st in
  match t with
  | TOperand _ => if expect then Some (false, depth) else None
  | TStr s =>
      if is_logical s then (if expect then None else Some (true, depth))
      else if bool_decide (s = "(") then
        (if expect then Some (true, S depth) else None)
      else if bool_decide (s = ")") then
        (if expect then None
         else match depth with O => None | S depth' => Some (false, depth') end)
      else None
  end.

Fixpoint scan (tokens : list Token) (st : bool * nat) : option (bool * nat) :=
  match tokens with
  | [] => Some st
  | t :: tokens' =>
      match scan_token t st with
      | Some st' => scan tokens' st'
      | None => None
      end
  end.

(** Numbers of ["("] and of ["and"]/["or"] on the operator stack. *)
Definition count_paren (ops : list string) : nat :=
  count_if (fun s => bool_decide (s = "(")) ops.

Definition count_logical (ops : list string) : nat :=
  count_if is_logical ops.

Definition total_leaves (nodes : list Node) : nat :=
  sum_list (count_leaves <$> nodes).

Definition total_internal (nodes : list Node) : nat :=
  sum_list (count_internal <$> nodes).

(** What a valid sequence leaves on the operator stack. *)
Definition allowed (s : string) : Prop := s = "and" \/ s = "or" \/ s = "(".

(** The invariant of the two stacks along a valid sequence. *)
Definition stacks_inv (st : bool * nat)
    (ops : list string) (nodes : list Node) (nl ni : nat) : Prop :=
  Forall allowed ops /\
  count_paren ops = st.2 /\
  length nodes = count_logical ops + (if st.1 then 0 else 1) /\
  Forall well_formed nodes /\
  total_leaves nodes = nl /\
  total_internal nodes + count_logical ops = ni.

(** Induction on trees, with the hypothesis on each child that is present. *)
Fixpoint Node_ind' (P : Node -> Prop)
    (H : forall d l r,
        from_option P True l -> from_option P True r -> P (mkNode d l r))
    (n : Node) : P n :=
  match n with
  | mkNode d l r =>
      H d l r
        (match l return from_option P True l with
         | Some x => Node_ind' P H x
         | None => I
         end)
        (match r return from_option P True r with
         | Some x => Node_ind' P H x
         | None => I
         end)
  end.

(** The builder never fails otherwise than by [IndexError]. *)
Definition builder_outcome {A} (o : outcome A) : Prop :=
  match o with
  | Ret _ | Raise IndexError => True
  | _ => False
  end.

(** ** Trees and inputs named in the statements *)

Definition leaf (o : Operand) : Node := mkNode (DOperand o) None None.

Definition internal (op : string) (l r : Node) : Node :=
  mkNode (DStr op) (Some l) (Some r).

Definition tree_height (t : Tree) : nat := from_option height 0 (root t).

(** The tokens [main] makes of its sample condition,
    [( evt.type=blah or evt.arg.flags=O_APPEND ) and
     ( evt.arg.flags=O_TRUNC or fd.filename=.bashrc )]. *)
Definition sample_tokens : list Token :=
  [TStr "("; TOperand ("evt.type", "blah"); TStr "or";
   TOperand ("evt.arg.flags", "O_APPEND"); TStr ")";
   TStr "and";
   TStr "("; TOperand ("evt.arg.flags", "O_TRUNC"); TStr "or";
   TOperand ("fd.filename", ".bashrc"); TStr ")"].

(** An ["and"] chain followed by an ["or"]: [a=1 and b=1 and c=1 or d=1],
    its conventional reading, an event on which only [d=1] holds, and the
    tree the builder makes of the tokens. *)
Definition chain_tokens : list Token :=
  [TOperand ("a", "1"); TStr "and"; TOperand ("b", "1"); TStr "and";
   TOperand ("c", "1"); TStr "or"; TOperand ("d", "1")].

Definition chain_event : Event := {[ "d" := "1" ]}.

Definition chain_reading : Expr :=
  EOr (EAnd (EAnd (EOperand ("a", "1")) (EOperand ("b", "1")))
            (EOperand ("c", "1")))
      (EOperand ("d", "1")).

Definition chain_tree : Tree :=
  mkTree (Some
    (internal "and" (leaf ("a", "1"))
       (internal "or"
          (internal "and" (leaf ("b", "1")) (leaf ("c", "1")))
          (leaf ("d", "1"))))).

(** ** [main]: the tokenizer and the sample run *)

(** [xs[i]] on a list. *)
Definition index {A} (xs : list A) (i : nat) : outcome A :=
  match xs !! i with
  | Some x => Ret x
  | None => Raise IndexError
  end.

(** [s.split(sep)] for a separator of one character, as [main] calls it with
    [" "] and ["="]: the first piece and the pieces after it.  Every
    occurrence of the separator ends a piece, so pieces can be empty. *)
Fixpoint split_pieces (sep : ascii) (s : string) : string * list string :=
  match s with
  | EmptyString => (EmptyString, [])
  | String c s' =>
      let '(piece, pieces) := split_pieces sep s' in
      if bool_decide (c = sep) then (EmptyString, piece :: pieces)
      else (String c piece, pieces)
  end.

Definition split (sep : ascii) (s : string) : list string :=
  let '(piece, pieces) := split_pieces sep s in piece :: pieces.

(** [sep in s] for a [sep] of one character. *)
Fixpoint char_in (sep : ascii) (s : string) : bool :=
  match s with
  | EmptyString => false
  | String c s' => bool_decide (c = sep) || char_in sep s'
  end.

(** [to_tuple = lambda x : (x.split("=")[0], x.split("=")[1])], line 147. *)
Definition to_tuple (x : string) : outcome Operand :=
  field ← index (split "="%char x) 0;
  value ← index (split "="%char x) 1;
  Ret (field, value).

(** One element of the comprehension of line 153:
    [to_tuple(x) if "=" in x else x]. *)
Definition tokenize_word (x : string) : outcome Token :=
  if char_in "="%char x then o ← to_tuple x; Ret (TOperand o)
  else Ret (TStr x).

(** A list comprehension [[f(x) for x in xs]] whose body can raise. *)
Fixpoint comprehension {A B} (f : A -> outcome B) (xs : list A)
  : outcome (list B) :=
  match xs with
  | [] => Ret []
  | x :: xs' =>
      y ← f x;
      ys ← comprehension f xs';
      Ret (y :: ys)
  end.

(** [[to_tuple(x) if "=" in x else x for x in s.split(" ")]], line 153. *)
Definition tokenize (s : string) : outcome (list Token) :=
  comprehension tokenize_word (split " "%char s).

(** The events of [main], lines 139-144. *)
Definition fake_event_sequences : list (list Event) :=
  [ [ {[ "evt.arg.flags" := "O_TRUNC"; "fd.filename" := ".bashrc" ]} ];
    [ {[ "evt.arg.flags" := "O_APPEND"; "evt.type" := "openat";
         "evt.is_open" := "true" ]};
      {[ "evt.type" := "hello" ]} ];
    [ {[ "evt.type" := "hello"; "evt.arg.flags" := "O_APPEND" ]};
      {[ "evt.type" := "blah" ]} ];
    [ {[ "evt.type" := "blah"; "evt.arg.flags" := "O_TRUNC" ]} ] ].

(** The sample condition of [main], line 150. *)
Definition sample_condition : string :=
  "( evt.type=blah or evt.arg.flags=O_APPEND ) and ( evt.arg.flags=O_TRUNC or fd.filename=.bashrc )".

(** [main], lines 134-157; the result is the list it prints.  The nested
    comprehension [for fes in fake_event_sequences for x in fes] visits the
    events of the sequences in order. *)
Definition main (fuel : nat) : outcome (list bool) :=
  test ← tokenize sample_condition;
  tree ← construct_tree test;
  comprehension (fun x => evaluate_tree fuel tree x)
    (concat fake_event_sequences).

(** The inverse of the tokenizer: the text of a token, and the condition
    string of a token sequence, its texts joined by single spaces. *)
Definition token_text (t : Token) : string :=
  match t with
  | TOperand (field, value) => field +:+ "=" +:+ value
  | TStr s => s
  end.

Fixpoint join (sep : ascii) (pieces : list string) : string :=
  match pieces with
  | [] => EmptyString
  | [piece] => piece
  | piece :: pieces' => piece +:+ String sep (join sep pieces')
  end.

Definition condition_text (tokens : list Token) : string :=
  join " "%char (token_text <$> tokens).

(** A token whose text the tokenizer reads back: no space, and no ["="]
    other than the one between the field and the value of an operand. *)
Definition plain (s : string) : Prop :=
  char_in " "%char s = false /\ char_in "="%char s = false.

Definition plain_token (t : Token) : Prop :=
  match t with
  | TOperand (field, value) => plain field /\ plain value
  | TStr s => plain s
  end.

(** Number of occurrences of a character. *)
Fixpoint count_char (sep : ascii) (s : string) : nat :=
  match s with
  | EmptyString => 0
  | String c s' => (if bool_decide (c = sep) then 1 else 0) + count_char sep s'
  end.

(** ** Trees made of the tokens of a sequence *)

(** Every leaf holds an operand token of [tokens] and has no child; every
    other node holds a string token of [tokens], not [")"], and has both
    children. *)
Fixpoint built_from (tokens : list Token) (n : Node) : Prop :=
  match n with
  | mkNode (DOperand o) None None => TOperand o ∈ tokens
  | mkNode (DStr s) (Some l) (Some r) =>
      (TStr s ∈ tokens /\ s <> ")") /\
      built_from tokens l /\ built_from tokens r
  | _ => False
  end.

(** The data of the nodes that are not leaves, root first. *)
Fixpoint operators (n : Node) : list Data :=
  match n with
  | mkNode d l r =>
      (if leaf_check n then [] else [d])
      ++ from_option operators [] l ++ from_option operators [] r
  end.

(** The keys of the [process] dict of [evaluate]. *)
Definition supported (d : Data) : Prop := d = DStr "and" \/ d = DStr "or".

(** Operands each followed by the operator [op], then the tokens [rest]:
    [o1 op o2 op ... on op rest]; and the tree nested to the right over the
    operands, [op(o1, op(o2, ... op(on, z)))]. *)
Definition chain (op : string) (os : list Operand) (rest : list Token)
  : list Token :=
  flat_map (fun o => [TOperand o; TStr op]) os ++ rest.

Definition nest (op : string) (os : list Operand) (z : Node) : Node :=
  foldr (fun o acc => internal op (leaf o) acc) z os.

Definition tree_operators (t : Tree) : list Data :=
  from_option operators [] (root t).

(** ** Sequences on which one reduction per ["or"] suffices

    The conventional reading, restricted to the sequences in which a
    conjunction that an ["or"] follows has two atoms at most: [SConj n] is a
    conjunction of [n] atoms, [SOpen] a disjunction of conjunctions of one or
    two atoms (an ["or"] may follow), [SExpr] such a disjunction closed by a
    conjunction of any length. *)
Inductive slevel : Type := SAtom | SConj (n : nat) | SOpen | SExpr.

Inductive reads_short : slevel -> list Token -> Expr -> Prop :=
| short_operand o :
    reads_short SAtom [TOperand o] (EOperand o)
| short_group l e :
    reads_short SExpr l e ->
    reads_short SAtom (TStr "(" :: l ++ [TStr ")"]) e
| short_atom l e :
    reads_short SAtom l e -> reads_short (SConj 1) l e
| short_and n l1 e1 l2 e2 :
    reads_short (SConj n) l1 e1 -> reads_short SAtom l2 e2 ->
    reads_short (SConj (S n)) (l1 ++ TStr "and" :: l2) (EAnd e1 e2)
| short_open n l e :
    reads_short (SConj n) l e -> n <= 2 -> reads_short SOpen l e
| short_or n l1 e1 l2 e2 :
    reads_short SOpen l1 e1 -> reads_short (SConj n) l2 e2 -> n <= 2 ->
    reads_short SOpen (l1 ++ TStr "or" :: l2) (EOr e1 e2)
| short_conj n l e :
    reads_short (SConj n) l e -> reads_short SExpr l e
| short_last n l1 e1 l2 e2 :
    reads_short SOpen l1 e1 -> reads_short (SConj n) l2 e2 ->
    reads_short SExpr (l1 ++ TStr "or" :: l2) (EOr e1 e2).

Definition level_of (lv : slevel) : level :=
  match lv with
  | SAtom => LAtom
  | SConj _ => LConj
  | SOpen | SExpr => LDisj
  end.

(** The verdict of a node, [false] where [denote] gives none. *)
Definition value (ev : Event) (n : Node) : bool :=
  match denote ev n with Ret b => b | _ => false end.

(** What the builder has made of a sequence read at a level, from the
    stacks [ops] and [nodes]: an atom leaves one node; a conjunction leaves
    its atoms [cs] under as many ["and"] less one; a disjunction leaves, in
    addition, its earlier conjunctions [ds], reduced, under as many ["or"]. *)
Definition built_as (lv : slevel) (l : list Token) (e : Expr) : Prop :=
  forall ops nodes,
    match lv with
    | SAtom =>
        exists n,
          process_tokens l ops nodes = Ret (ops, n :: nodes) /\
          well_formed n /\ forall ev, value ev n = eval_expr ev e
    | SConj k =>
        exists a cs,
          process_tokens l ops nodes
          = Ret (replicate a "and" ++ ops, cs ++ nodes) /\
          k = S a /\ length cs = S a /\ Forall well_formed cs /\
          forall ev, forallb (value ev) cs = eval_expr ev e
    | SOpen =>
        head ops <> Some "and" ->
        exists a k cs ds,
          process_tokens l ops nodes
          = Ret (replicate a "and" ++ replicate k "or" ++ ops,
                 cs ++ ds ++ nodes) /\
          a <= 1 /\ length cs = S a /\ length ds = k /\
          Forall well_formed cs /\ Forall well_formed ds /\
          forall ev,
            existsb (value ev) ds || forallb (value ev) cs = eval_expr ev e
    | SExpr =>
        head ops <> Some "and" ->
        exists a k cs ds,
          process_tokens l ops nodes
          = Ret (replicate a "and" ++ replicate k "or" ++ ops,
                 cs ++ ds ++ nodes) /\
          length cs = S a /\ length ds = k /\
          Forall well_formed cs /\ Forall well_formed ds /\
          forall ev,
            existsb (value ev) ds || forallb (value ev) cs = eval_expr ev e
    end.
(** * Properties *)

(** ** The evaluator *)

Lemma evaluate_unfold fuel node st :
  evaluate (S fuel) node st =
  match match node with Some n => Some n | None => root (self st) end with
  | None => (Ret false, st)
  | Some n =>
      if leaf_check n then (eval_to_bool (data n) (fes st), st)
      else
        match evaluate fuel (left n) st with
        | (Ret x, st1) =>
            match evaluate fuel (right n) st1 with
            | (Ret y, st2) =>
                (match process (data n) with
                 | Ret f => Ret (f x y)
                 | Raise e => Raise e
                 | OutOfFuel => OutOfFuel
                 end, st2)
            | (Raise e, st2) => (Raise e, st2)
            | (OutOfFuel, st2) => (OutOfFuel, st2)
            end
        | (Raise e, st1) => (Raise e, st1)
        | (OutOfFuel, st1) => (OutOfFuel, st1)
        end
  end.
Proof.
  cbn [evaluate]. unfold mbind, Run_bind, read_root, read_fes, lift, mret, Run_ret.
  destruct node as [n|]; [|destruct (root (self st)) as [n|]]; try reflexivity;
    (destruct (leaf_check n); [reflexivity|]);
    (destruct (evaluate fuel (left n) st) as [[x|e|] st1]; [|reflexivity..]);
    (destruct (evaluate fuel (right n) st1) as [[y|e|] st2]; [|reflexivity..]);
    destruct (process (data n)); reflexivity.
Qed.

(** No call of [evaluate] changes the store. *)
Lemma evaluate_store fuel : forall node st, (evaluate fuel node st).2 = st.
Proof.
  induction fuel as [|fuel IH]; intros node st; [reflexivity|].
  rewrite evaluate_unfold.
  destruct (match node with Some n => Some n | None => root (self st) end)
    as [n|]; [|reflexivity].
  destruct (leaf_check n); [reflexivity|].
  pose proof (IH (left n) st) as Hl.
  destruct (evaluate fuel (left n) st) as [[x|e|] st1]; simpl in Hl; subst st1;
    try reflexivity.
  pose proof (IH (right n) st) as Hr.
  destruct (evaluate fuel (right n) st) as [[y|e|] st2]; simpl in Hr; subst st2;
    reflexivity.
Qed.

Lemma full_leaf_check d l r :
  full (mkNode d l r) ->
  (leaf_check (mkNode d l r) = true /\ l = None /\ r = None) \/
  (exists nl nr, leaf_check (mkNode d l r) = false /\ l = Some nl /\ r = Some nr
                 /\ full nl /\ full nr).
Proof.
  destruct l as [nl|], r as [nr|]; simpl; try tauto.
  intros [? ?]. right. exists nl, nr. auto.
Qed.

(** With fuel covering its height, the evaluation of a full node is its
    denotation. *)
Lemma evaluate_denote fuel : forall n st,
  full n -> height n <= fuel ->
  evaluate fuel (Some n) st = (denote (fes st) n, st).
Proof.
  induction fuel as [|fuel IH]; intros [d l r] st Hfull Hh.
  - simpl in Hh. lia.
  - rewrite evaluate_unfold.
    destruct (full_leaf_check _ _ _ Hfull)
      as [(Hleaf & -> & ->) | (nl & nr & Hleaf & -> & -> & Hl & Hr)];
      rewrite Hleaf.
    + reflexivity.
    + simpl in Hh. cbn [left right data].
      rewrite (IH nl st Hl) by lia.
      cbn [denote]. unfold mbind, outcome_bind, obind.
      destruct (denote (fes st) nl) as [x|e|]; try reflexivity.
      rewrite (IH nr st Hr) by lia.
      destruct (denote (fes st) nr) as [y|e|]; try reflexivity.
Qed.

(** A call without [node] starts from the root. *)
Lemma evaluate_None fuel st n :
  root (self st) = Some n ->
  evaluate fuel None st = evaluate fuel (Some n) st.
Proof.
  intros Hroot. destruct fuel as [|fuel]; [reflexivity|].
  rewrite !evaluate_unfold, Hroot. reflexivity.
Qed.

Lemma evaluate_tree_denote fuel n ev :
  full n -> height n <= fuel ->
  evaluate_tree fuel (mkTree (Some n)) ev = denote ev n.
Proof.
  intros Hfull Hh. unfold evaluate_tree.
  rewrite (evaluate_None _ _ n) by reflexivity.
  rewrite evaluate_denote by assumption. reflexivity.
Qed.

Lemma eval_to_bool_operand o ev :
  eval_to_bool (DOperand o) ev = Ret (operand_value ev o).
Proof.
  destruct o as [field value]. unfold eval_to_bool, operand_value. simpl.
  destruct (ev !! field) as [v|] eqn:Hv.
  - f_equal. apply bool_decide_ext. split; intros H; congruence.
  - reflexivity.
Qed.

Lemma process_and : process (DStr "and") = Ret andb.
Proof. reflexivity. Qed.

Lemma process_or : process (DStr "or") = Ret orb.
Proof. reflexivity. Qed.

Lemma well_formed_full n : well_formed n -> full n.
Proof.
  induction n as [d l r IHl IHr] using Node_ind'.
  destruct d as [o|s], l as [nl|], r as [nr|];
    cbn [well_formed full denote subnodes from_option] in *; try tauto.
Qed.

(** A well-formed tree always has a boolean value. *)
Lemma well_formed_denote ev n :
  well_formed n -> exists b, denote ev n = Ret b.
Proof.
  induction n as [d l r IHl IHr] using Node_ind'.
  destruct d as [o|s], l as [nl|], r as [nr|];
    cbn [well_formed full denote subnodes from_option] in *; try tauto.
  - intros _. rewrite eval_to_bool_operand. eauto.
  - intros (Hs & Hl & Hr).
    destruct (IHl Hl) as [x ->]. destruct (IHr Hr) as [y ->].
    destruct Hs as [-> | ->]; simpl; eauto.
Qed.

(** A full tree never exhausts the fuel of its denotation. *)
Lemma full_denote ev n : full n -> denote ev n <> OutOfFuel.
Proof.
  induction n as [d l r IHl IHr] using Node_ind'.
  destruct l as [nl|], r as [nr|];
    cbn [well_formed full denote subnodes from_option] in *; try tauto.
  - intros (Hl & Hr).
    pose proof (IHl Hl) as Dl. pose proof (IHr Hr) as Dr.
    unfold mbind, outcome_bind, obind.
    destruct (denote ev nl); try congruence.
    destruct (denote ev nr); try congruence.
    unfold process. destruct d as [o|s]; [discriminate|].
    repeat case_bool_decide; discriminate.
  - intros _. destruct d as [[f v]|s]; simpl.
    + destruct (ev !! f); discriminate.
    + destruct s as [|c0 s']; [discriminate|].
      destruct (ev !! String c0 ""); [|discriminate].
      destruct s'; discriminate.
Qed.

Lemma well_formed_node_ok n :
  well_formed n -> Forall node_ok (subnodes n).
Proof.
  induction n as [d l r IHl IHr] using Node_ind'.
  destruct d as [o|s], l as [nl|], r as [nr|];
    cbn [well_formed full denote subnodes from_option] in *; try tauto.
  - intros _. constructor; [|constructor].
    unfold node_ok. simpl. split; [tauto|]. split; [eauto|discriminate].
  - intros (Hs & Hl & Hr). constructor.
    + unfold node_ok. simpl. split; [|split].
      * split; [discriminate|]. intros [? _]. discriminate.
      * discriminate.
      * intros _. split; [destruct Hs; subst; auto|]. split; eauto.
    + apply Forall_app. split; [apply IHl | apply IHr]; assumption.
Qed.

(** ** The builder *)

(** [reduce] on a non-empty operator stack is [reduce_top] on its top. *)
Lemma reduce_cons top ops nodes :
  reduce (top :: ops) nodes =
  (nodes' ← reduce_top top nodes; Ret (ops, nodes')).
Proof.
  unfold reduce, reduce_top.
  destruct nodes as [|r [|l nodes]]; reflexivity.
Qed.

Lemma reduce_top_Ret top nodes nodes' :
  reduce_top top nodes = Ret nodes' <->
  exists r l rest,
    nodes = r :: l :: rest /\
    nodes' = mkNode (DStr top) (Some l) (Some r) :: rest.
Proof.
  unfold reduce_top. destruct nodes as [|r [|l rest]]; simpl.
  - split; [discriminate | intros (? & ? & ? & ? & _); discriminate].
  - split; [discriminate | intros (? & ? & ? & ? & _); discriminate].
  - split.
    + intros [= <-]. eauto.
    + intros (? & ? & ? & [= <- <- <-] & ->). reflexivity.
Qed.

Lemma builder_outcome_bind {A B} (m : outcome A) (k : A -> outcome B) :
  builder_outcome m -> (forall a, builder_outcome (k a)) ->
  builder_outcome (m ≫= k).
Proof.
  destruct m as [a|[]|]; simpl; auto.
Qed.

Lemma pop_outcome {A} (l : list A) : builder_outcome (pop l).
Proof. destruct l; exact I. Qed.

Lemma reduce_top_outcome top nodes : builder_outcome (reduce_top top nodes).
Proof. destruct nodes as [|r [|l rest]]; exact I. Qed.

Lemma reduce_to_paren_outcome ops :
  forall nodes, builder_outcome (reduce_to_paren ops nodes).
Proof.
  induction ops as [|top ops IH]; intros nodes; simpl; [exact I|].
  case_bool_decide; [exact I|].
  apply builder_outcome_bind; [apply reduce_top_outcome | auto].
Qed.

Lemma empty_the_stack_outcome ops :
  forall nodes, builder_outcome (empty_the_stack ops nodes).
Proof.
  induction ops as [|top ops IH]; intros nodes; simpl; [exact I|].
  apply builder_outcome_bind; [apply reduce_top_outcome | auto].
Qed.

Lemma process_token_outcome t ops nodes :
  builder_outcome (process_token t ops nodes).
Proof.
  destruct t as [o|s]; simpl; [exact I|].
  destruct (bool_decide (s = "or") && bool_decide (head ops = Some "and")).
  - destruct ops as [|top ops].
    + unfold reduce. destruct nodes; exact I.
    + rewrite reduce_cons.
      pose proof (reduce_top_outcome top nodes) as H.
      destruct (reduce_top top nodes) as [?|[]|]; simpl in *; auto.
  - case_bool_decide; [|exact I].
    unfold close_paren.
    apply builder_outcome_bind; [apply reduce_to_paren_outcome|].
    intros [ops' nodes']. destruct ops'; exact I.
Qed.

Lemma process_tokens_outcome tokens :
  forall ops nodes, builder_outcome (process_tokens tokens ops nodes).
Proof.
  induction tokens as [|t tokens IH]; intros ops nodes; simpl; [exact I|].
  apply builder_outcome_bind; [apply process_token_outcome|].
  intros [ops' nodes']. apply IH.
Qed.

Lemma construct_tree_outcome tokens : builder_outcome (construct_tree tokens).
Proof.
  unfold construct_tree.
  apply builder_outcome_bind; [apply process_tokens_outcome|].
  intros [ops nodes].
  apply builder_outcome_bind; [apply empty_the_stack_outcome|].
  intros nodes'. destruct nodes'; exact I.
Qed.

Lemma process_tokens_app l1 l2 ops nodes :
  process_tokens (l1 ++ l2) ops nodes =
  ('(ops', nodes') ← process_tokens l1 ops nodes;
   process_tokens l2 ops' nodes').
Proof.
  revert ops nodes. induction l1 as [|t l1 IH]; intros ops nodes; simpl.
  - reflexivity.
  - destruct (process_token t ops nodes) as [[ops' nodes']|e|]; simpl; auto.
Qed.

Lemma bind_Ret {A B} (m : outcome A) (k : A -> outcome B) b :
  m ≫= k = Ret b <-> exists a, m = Ret a /\ k a = Ret b.
Proof.
  destruct m as [a|e|]; simpl; split; try discriminate; eauto.
  - intros (a' & [= <-] & H). exact H.
  - intros (? & ? & _). discriminate.
  - intros (? & ? & _). discriminate.
Qed.

(** *** Every tree the builder stacks is full *)

Lemma reduce_top_full top nodes nodes' :
  Forall full nodes -> reduce_top top nodes = Ret nodes' ->
  Forall full nodes'.
Proof.
  intros Hf (r & l & rest & -> & ->)%reduce_top_Ret.
  inversion Hf as [|? ? Hr Hf']; subst.
  inversion Hf' as [|? ? Hl Hrest]; subst.
  constructor; [split; assumption | assumption].
Qed.

Lemma reduce_to_paren_full ops : forall nodes ops' nodes',
  Forall full nodes -> reduce_to_paren ops nodes = Ret (ops', nodes') ->
  Forall full nodes'.
Proof.
  induction ops as [|top ops IH]; intros nodes ops' nodes' Hf; simpl.
  - intros [= <- <-]. assumption.
  - case_bool_decide.
    + intros [= <- <-]. assumption.
    + intros (nodes1 & H1 & H2)%bind_Ret.
      eapply IH; [|exact H2]. eapply reduce_top_full; eassumption.
Qed.

Lemma empty_the_stack_full ops : forall nodes nodes',
  Forall full nodes -> empty_the_stack ops nodes = Ret nodes' ->
  Forall full nodes'.
Proof.
  induction ops as [|top ops IH]; intros nodes nodes' Hf; simpl.
  - intros [= <-]. assumption.
  - intros (nodes1 & H1 & H2)%bind_Ret.
    eapply IH; [|exact H2]. eapply reduce_top_full; eassumption.
Qed.

Lemma process_token_full t ops nodes ops' nodes' :
  Forall full nodes -> process_token t ops nodes = Ret (ops', nodes') ->
  Forall full nodes'.
Proof.
  intros Hf. destruct t as [o|s]; simpl.
  - intros [= <- <-]. constructor; [exact I | assumption].
  - destruct (bool_decide (s = "or") && bool_decide (head ops = Some "and")).
    + destruct ops as [|top ops]; [destruct nodes; discriminate|].
      rewrite reduce_cons.
      intros ([ops1 nodes1] & (nodes2 & H1 & [= <- <-])%bind_Ret
                & [= <- <-])%bind_Ret.
      eapply reduce_top_full; eassumption.
    + case_bool_decide.
      * unfold close_paren.
        intros ([ops1 nodes1] & H1 & H2)%bind_Ret.
        destruct ops1 as [|p ops1]; [discriminate|].
        simpl in H2. injection H2 as <- <-.
        eapply reduce_to_paren_full; eassumption.
      * intros [= <- <-]. assumption.
Qed.

Lemma process_tokens_full tokens : forall ops nodes ops' nodes',
  Forall full nodes -> process_tokens tokens ops nodes = Ret (ops', nodes') ->
  Forall full nodes'.
Proof.
  induction tokens as [|t tokens IH]; intros ops nodes ops' nodes' Hf; simpl.
  - intros [= <- <-]. assumption.
  - intros ([ops1 nodes1] & H1 & H2)%bind_Ret.
    eapply IH; [|exact H2]. eapply process_token_full; eassumption.
Qed.

(** Whatever the tokens, a tree that [construct_tree] returns has a root, and
    none of its nodes has exactly one child. *)
Lemma construct_tree_full tokens t :
  construct_tree tokens = Ret t ->
  exists n, root t = Some n /\ full n.
Proof.
  unfold construct_tree.
  intros ([ops nodes] & H1 & (nodes' & H2 & H3)%bind_Ret)%bind_Ret.
  destruct nodes' as [|n rest]; [discriminate|].
  simpl in H3. injection H3 as <-.
  exists n. split; [reflexivity|].
  assert (Forall full (n :: rest)) as Hf.
  { eapply empty_the_stack_full; [|exact H2].
    eapply process_tokens_full; [|exact H1]. constructor. }
  inversion Hf; assumption.
Qed.

(** *** The stacks along a valid sequence *)

Lemma count_if_cons {A} (f : A -> bool) x l :
  count_if f (x :: l) = (if f x then 1 else 0) + count_if f l.
Proof. unfold count_if. simpl. destruct (f x); reflexivity. Qed.

Lemma count_if_app {A} (f : A -> bool) l1 l2 :
  count_if f (l1 ++ l2) = count_if f l1 + count_if f l2.
Proof.
  unfold count_if. rewrite List.filter_app, length_app. reflexivity.
Qed.

Lemma total_leaves_cons n nodes :
  total_leaves (n :: nodes) = count_leaves n + total_leaves nodes.
Proof. reflexivity. Qed.

Lemma total_internal_cons n nodes :
  total_internal (n :: nodes) = count_internal n + total_internal nodes.
Proof. reflexivity. Qed.

Lemma reduce_top_valid top nodes k :
  top = "and" \/ top = "or" ->
  length nodes = k + 2 -> Forall well_formed nodes ->
  exists nodes',
    reduce_top top nodes = Ret nodes' /\
    length nodes' = k + 1 /\ Forall well_formed nodes' /\
    total_leaves nodes' = total_leaves nodes /\
    total_internal nodes' = S (total_internal nodes).
Proof.
  intros Htop Hlen Hwf.
  destruct nodes as [|r [|l rest]]; simpl in Hlen; try lia.
  inversion Hwf as [|? ? Hr Hwf']; subst.
  inversion Hwf' as [|? ? Hl Hrest]; subst.
  eexists. split; [reflexivity|].
  split; [simpl; lia|].
  split; [constructor; [simpl; auto | assumption]|].
  rewrite !total_leaves_cons, !total_internal_cons. simpl. lia.
Qed.

Lemma allowed_cases s :
  allowed s ->
  (s = "(" /\ is_logical s = false) \/
  ((s = "and" \/ s = "or") /\ is_logical s = true /\ s <> "(").
Proof.
  intros [-> | [-> | ->]]; [right | right | left]; repeat split; auto;
    discriminate.
Qed.

Lemma reduce_to_paren_valid ops : forall nodes d,
  Forall allowed ops -> count_paren ops = S d ->
  length nodes = count_logical ops + 1 -> Forall well_formed nodes ->
  exists ops' nodes',
    reduce_to_paren ops nodes = Ret ("(" :: ops', nodes') /\
    Forall allowed ops' /\ count_paren ops' = d /\
    length nodes' = count_logical ops' + 1 /\ Forall well_formed nodes' /\
    total_leaves nodes' = total_leaves nodes /\
    total_internal nodes' + count_logical ops' =
      total_internal nodes + count_logical ops.
Proof.
  induction ops as [|top ops IH]; intros nodes d Hal Hp Hlen Hwf.
  - discriminate.
  - inversion Hal as [|? ? Htop Hal']; subst.
    unfold count_paren, count_logical in *.
    rewrite count_if_cons in Hp, Hlen. rewrite count_if_cons.
    cbn [reduce_to_paren].
    destruct (allowed_cases _ Htop) as [[-> Hlog] | (Hop & Hlog & Hne)];
      rewrite Hlog in *.
    + rewrite bool_decide_eq_true_2 in Hp |- * by reflexivity.
      exists ops, nodes. simpl in *. repeat split; auto; lia.
    + rewrite bool_decide_eq_false_2 in Hp |- * by assumption.
      destruct (reduce_top_valid top nodes (count_if is_logical ops) Hop)
        as (nodes1 & -> & Hlen1 & Hwf1 & Hl1 & Hi1); [lia | assumption |].
      destruct (IH nodes1 d Hal' Hp Hlen1 Hwf1)
        as (ops' & nodes' & Heq & ? & ? & ? & ? & Hl' & Hi').
      exists ops', nodes'. simpl. repeat split; auto; lia.
Qed.

Lemma empty_the_stack_valid ops : forall nodes,
  Forall allowed ops -> count_paren ops = 0 ->
  length nodes = count_logical ops + 1 -> Forall well_formed nodes ->
  exists n,
    empty_the_stack ops nodes = Ret [n] /\ well_formed n /\
    count_leaves n = total_leaves nodes /\
    count_internal n = total_internal nodes + count_logical ops.
Proof.
  induction ops as [|top ops IH]; intros nodes Hal Hp Hlen Hwf.
  - destruct nodes as [|n [|]]; simpl in Hlen; try discriminate.
    exists n. inversion Hwf; subst.
    unfold total_leaves, total_internal, count_logical, count_if. simpl.
    repeat split; auto; lia.
  - inversion Hal as [|? ? Htop Hal']; subst.
    unfold count_paren, count_logical in *.
    rewrite count_if_cons in Hp, Hlen. rewrite count_if_cons.
    cbn [empty_the_stack].
    destruct (allowed_cases _ Htop) as [[-> Hlog] | (Hop & Hlog & Hne)];
      rewrite Hlog in *.
    + rewrite bool_decide_eq_true_2 in Hp by reflexivity. discriminate.
    + rewrite bool_decide_eq_false_2 in Hp by assumption.
      destruct (reduce_top_valid top nodes (count_if is_logical ops) Hop)
        as (nodes1 & -> & Hlen1 & Hwf1 & Hl1 & Hi1); [lia | assumption |].
      destruct (IH nodes1 Hal' Hp Hlen1 Hwf1) as (n & Heq & ? & Hl' & Hi').
      exists n. simpl. repeat split; auto; lia.
Qed.

Lemma is_logical_true s : is_logical s = true <-> s = "and" \/ s = "or".
Proof.
  unfold is_logical. rewrite orb_true_iff, !bool_decide_eq_true. tauto.
Qed.

Ltac close_inv :=
  repeat split;
  first [ assumption | lia | reflexivity
        | constructor; unfold allowed; simpl; solve [tauto | auto]
        | solve [auto] ].

Lemma process_token_valid t st st' ops nodes nl ni :
  stacks_inv st ops nodes nl ni -> scan_token t st = Some st' ->
  exists ops' nodes',
    process_token t ops nodes = Ret (ops', nodes') /\
    stacks_inv st' ops' nodes'
      (nl + (if is_operand_token t then 1 else 0))
      (ni + (if is_operator_token t then 1 else 0)).
Proof.
  destruct st as [e d]. unfold stacks_inv. cbn [fst snd].
  intros (Hal & Hp & Hlen & Hwf & Hnl & Hni) Hscan.
  destruct t as [o|s]; cbn [scan_token process_token is_operand_token
                             is_operator_token] in *.
  - (* an operand *)
    destruct e; [|discriminate]. injection Hscan as <-.
    eexists _, _. split; [reflexivity|]. cbn [fst snd].
    rewrite total_leaves_cons, total_internal_cons. simpl.
    close_inv.
  - destruct (is_logical s) eqn:Hlog.
    + (* "and" or "or" *)
      destruct e; [discriminate|]. injection Hscan as <-.
      apply is_logical_true in Hlog as Hs.
      destruct (bool_decide (s = "or") && bool_decide (head ops = Some "and"))
        eqn:Hprec.
      * apply andb_true_iff in Hprec as [Hor Hhd].
        apply bool_decide_eq_true in Hor, Hhd. subst s.
        destruct ops as [|top ops0]; [discriminate|].
        injection Hhd as ->.
        apply Forall_cons in Hal as [_ Hal0].
        unfold count_paren, count_logical in *.
        rewrite count_if_cons in Hp, Hlen, Hni. simpl in Hp, Hlen, Hni.
        rewrite reduce_cons.
        destruct (reduce_top_valid "and" nodes (count_if is_logical ops0))
          as (nodes1 & -> & Hlen1 & Hwf1 & Hl1 & Hi1); [auto | lia | auto |].
        eexists _, _. split; [reflexivity|]. cbn [fst snd].
        rewrite !count_if_cons. simpl.
        close_inv.
      * assert (bool_decide (s = ")") = false) as ->.
        { apply bool_decide_eq_false. destruct Hs; subst; discriminate. }
        eexists _, _. split; [reflexivity|]. cbn [fst snd].
        unfold count_paren, count_logical in *.
        rewrite !count_if_cons, Hlog.
        assert (bool_decide (s = "(") = false) as ->.
        { apply bool_decide_eq_false. destruct Hs; subst; discriminate. }
        close_inv.
    + assert (bool_decide (s = "or") = false) as ->.
      { apply bool_decide_eq_false. intros ->. discriminate. }
      cbn [andb].
      case_bool_decide as Hopen.
      * (* "(" *)
        subst s. destruct e; [|discriminate]. injection Hscan as <-.
        rewrite bool_decide_eq_false_2 by discriminate.
        eexists _, _. split; [reflexivity|]. cbn [fst snd].
        unfold count_paren, count_logical in *.
        rewrite !count_if_cons. simpl.
        close_inv.
      * case_bool_decide as Hclose; [|discriminate].
        (* ")" *)
        destruct e; [discriminate|]. destruct d as [|d']; [discriminate|].
        injection Hscan as <-.
        destruct (reduce_to_paren_valid ops nodes d' Hal Hp Hlen Hwf)
          as (ops' & nodes' & Heq & ? & ? & ? & ? & ? & ?).
        unfold close_paren. rewrite Heq.
        eexists _, _. split; [reflexivity|]. cbn [fst snd].
        close_inv.
Qed.

Lemma process_tokens_valid tokens : forall st st' ops nodes nl ni,
  stacks_inv st ops nodes nl ni -> scan tokens st = Some st' ->
  exists ops' nodes',
    process_tokens tokens ops nodes = Ret (ops', nodes') /\
    stacks_inv st' ops' nodes'
      (nl + operand_tokens tokens) (ni + operator_tokens tokens).
Proof.
  induction tokens as [|t tokens IH]; intros st st' ops nodes nl ni Hinv;
    cbn [scan process_tokens].
  - intros [= <-]. exists ops, nodes. split; [reflexivity|].
    unfold operand_tokens, operator_tokens, count_if. simpl.
    rewrite !Nat.add_0_r. assumption.
  - destruct (scan_token t st) as [st1|] eqn:Hst; [|discriminate].
    intros Hscan.
    destruct (process_token_valid _ _ _ _ _ _ _ Hinv Hst)
      as (ops1 & nodes1 & -> & Hinv1).
    destruct (IH _ _ _ _ _ _ Hinv1 Hscan) as (ops' & nodes' & Heq & Hinv').
    exists ops', nodes'. split; [exact Heq|].
    unfold operand_tokens, operator_tokens in *.
    rewrite !count_if_cons. rewrite <- !Nat.add_assoc in Hinv'. exact Hinv'.
Qed.

(** The scanner accepts the valid sequences. *)
Lemma scan_app l1 l2 st :
  scan (l1 ++ l2) st =
  match scan l1 st with Some st' => scan l2 st' | None => None end.
Proof.
  revert st. induction l1 as [|t l1 IH]; intros st; simpl; [reflexivity|].
  destruct (scan_token t st); auto.
Qed.

Lemma valid_infix_scan l :
  valid_infix l -> forall d, scan l (true, d) = Some (false, d).
Proof.
  induction 1 as [o | l1 op l2 _ IH1 Hop _ IH2 | l _ IH]; intros d.
  - reflexivity.
  - rewrite scan_app, IH1. cbn [scan scan_token].
    apply is_logical_true in Hop as ->. apply IH2.
  - cbn [scan scan_token]. simpl. rewrite scan_app, IH. reflexivity.
Qed.

(** The builder succeeds on every sequence the scanner accepts. *)
Lemma construct_tree_scan tokens :
  scan tokens (true, 0) = Some (false, 0) ->
  exists n,
    construct_tree tokens = Ret (mkTree (Some n)) /\ well_formed n /\
    count_leaves n = operand_tokens tokens /\
    count_internal n = operator_tokens tokens.
Proof.
  intros Hscan.
  assert (stacks_inv (true, 0) [] [] 0 0) as Hinv.
  { unfold stacks_inv. simpl. repeat split; auto. }
  destruct (process_tokens_valid _ _ _ _ _ _ _ Hinv Hscan)
    as (ops & nodes & Heq & Hal & Hp & Hlen & Hwf & Hnl & Hni).
  cbn [fst snd] in *.
  destruct (empty_the_stack_valid ops nodes Hal Hp Hlen Hwf)
    as (n & Heq' & Hwfn & Hl & Hi).
  exists n. unfold construct_tree. rewrite Heq. simpl. rewrite Heq'. simpl.
  repeat split; auto; lia.
Qed.

(** *** Parentheses on the operator stack *)

Lemma reduce_to_paren_Ret ops : forall nodes ops' nodes',
  reduce_to_paren ops nodes = Ret (ops', nodes') ->
  (ops' = [] /\ count_paren ops = 0) \/
  (exists rest, ops' = "(" :: rest /\ count_paren ops = S (count_paren rest)).
Proof.
  induction ops as [|top ops IH]; intros nodes ops' nodes'; simpl.
  - intros [= <- <-]. left. split; reflexivity.
  - unfold count_paren in *. rewrite count_if_cons.
    case_bool_decide as Htop.
    + intros [= <- <-]. right. exists ops. subst top. split; reflexivity.
    + intros (nodes1 & _ & H)%bind_Ret. apply IH in H. exact H.
Qed.

Lemma close_paren_Ret ops nodes ops' nodes' :
  close_paren ops nodes = Ret (ops', nodes') ->
  count_paren ops = S (count_paren ops').
Proof.
  unfold close_paren.
  intros ([ops1 nodes1] & H1 & H2)%bind_Ret.
  apply reduce_to_paren_Ret in H1 as [[-> _] | (rest & -> & Hc)].
  - discriminate.
  - simpl in H2. injection H2 as <- <-. exact Hc.
Qed.

(** Each token moves the number of stacked ["("] as its own kind says. *)
Lemma process_token_paren t ops nodes ops' nodes' :
  process_token t ops nodes = Ret (ops', nodes') ->
  count_paren ops' + (if bool_decide (t = TStr ")") then 1 else 0) =
  count_paren ops + (if bool_decide (t = TStr "(") then 1 else 0).
Proof.
  destruct t as [o|s]; cbn [process_token].
  - intros [= <- <-]. rewrite !bool_decide_eq_false_2 by discriminate. lia.
  - destruct (bool_decide (s = "or") && bool_decide (head ops = Some "and"))
      eqn:Hprec.
    + apply andb_true_iff in Hprec as [Hor Hhd].
      apply bool_decide_eq_true in Hor, Hhd. subst s.
      destruct ops as [|top ops0]; [discriminate|]. injection Hhd as ->.
      rewrite reduce_cons.
      intros ([ops1 nodes1] & (nodes2 & _ & [= <- <-])%bind_Ret
                & [= <- <-])%bind_Ret.
      rewrite !bool_decide_eq_false_2 by discriminate.
      unfold count_paren. rewrite !count_if_cons. simpl. lia.
    + clear Hprec. case_bool_decide as Hclose.
      * subst s. intros H%close_paren_Ret.
        rewrite bool_decide_eq_true_2 by reflexivity.
        rewrite bool_decide_eq_false_2 by discriminate. lia.
      * intros [= <- <-].
        rewrite (bool_decide_eq_false_2 (TStr s = TStr ")")) by congruence.
        unfold count_paren. rewrite count_if_cons.
        destruct (decide (s = "(")) as [-> | Hne].
        -- rewrite !bool_decide_eq_true_2 by reflexivity. lia.
        -- rewrite !bool_decide_eq_false_2 by congruence. lia.
Qed.

Lemma process_tokens_paren tokens : forall ops nodes ops' nodes',
  process_tokens tokens ops nodes = Ret (ops', nodes') ->
  count_paren ops' + count_token (TStr ")") tokens =
  count_paren ops + count_token (TStr "(") tokens.
Proof.
  induction tokens as [|t tokens IH]; intros ops nodes ops' nodes'; simpl.
  - intros [= <- <-]. reflexivity.
  - intros ([ops1 nodes1] & H1 & H2)%bind_Ret.
    apply process_token_paren in H1. apply IH in H2.
    unfold count_token in *. rewrite !count_if_cons. lia.
Qed.

(** With no ["("] on the operator stack, a [")"] token raises. *)
Lemma process_token_close_raises ops nodes :
  count_paren ops = 0 ->
  process_token (TStr ")") ops nodes = Raise IndexError.
Proof.
  intros Hc.
  pose proof (process_token_outcome (TStr ")") ops nodes) as Hout.
  destruct (process_token (TStr ")") ops nodes) as [[ops' nodes']|[]|] eqn:Heq;
    simpl in Hout; try tauto.
  apply process_token_paren in Heq.
  rewrite bool_decide_eq_true_2 in Heq by reflexivity.
  rewrite bool_decide_eq_false_2 in Heq by discriminate. lia.
Qed.

(** ** The sample rule and the chain *)

(** A sequence that has a conventional reading is syntactically valid. *)
Lemma reads_valid lv l e : reads lv l e -> valid_infix l.
Proof.
  induction 1; auto using valid_infix.
Qed.

Lemma sample_tokens_valid : valid_infix sample_tokens.
Proof.
  apply (valid_binary
           [TStr "("; TOperand ("evt.type", "blah"); TStr "or";
            TOperand ("evt.arg.flags", "O_APPEND"); TStr ")"]
           "and"
           [TStr "("; TOperand ("evt.arg.flags", "O_TRUNC"); TStr "or";
            TOperand ("fd.filename", ".bashrc"); TStr ")"]).
  - apply (valid_group [TOperand ("evt.type", "blah"); TStr "or";
                        TOperand ("evt.arg.flags", "O_APPEND")]).
    apply (valid_binary [_] "or" [_]); [constructor | auto | constructor].
  - auto.
  - apply (valid_group [TOperand ("evt.arg.flags", "O_TRUNC"); TStr "or";
                        TOperand ("fd.filename", ".bashrc")]).
    apply (valid_binary [_] "or" [_]); [constructor | auto | constructor].
Defined.

(** The two events of the end-to-end scenario. *)
Example sample_rule_verdicts :
  (t ← construct_tree sample_tokens;
   evaluate_tree 3 t
     {[ "evt.arg.flags" := "O_TRUNC"; "fd.filename" := ".bashrc" ]})
  = Ret false /\
  (t ← construct_tree sample_tokens;
   evaluate_tree 3 t {[ "evt.type" := "blah"; "evt.arg.flags" := "O_TRUNC" ]})
  = Ret true.
Proof. split; vm_compute; reflexivity. Qed.

(** A single operand builds a one-node tree. *)
Example single_operand :
  construct_tree [TOperand ("a", "b")] = Ret (mkTree (Some (leaf ("a", "b"))))
  /\ evaluate_tree 1 (mkTree (Some (leaf ("a", "b")))) {[ "a" := "b" ]}
     = Ret true.
Proof. split; vm_compute; reflexivity. Qed.

Lemma chain_reads : reads LDisj chain_tokens chain_reading.
Proof.
  apply (reads_or
           [TOperand ("a", "1"); TStr "and"; TOperand ("b", "1");
            TStr "and"; TOperand ("c", "1")] _
           [TOperand ("d", "1")] _).
  - apply reads_conj.
    apply (reads_and
             [TOperand ("a", "1"); TStr "and"; TOperand ("b", "1")] _
             [TOperand ("c", "1")] _).
    + apply (reads_and [TOperand ("a", "1")] _ [TOperand ("b", "1")] _).
      * apply reads_atom, reads_operand.
      * apply reads_operand.
    + apply reads_operand.
  - apply reads_atom, reads_operand.
Qed.

Lemma chain_reading_true : eval_expr chain_event chain_reading = true.
Proof. vm_compute. reflexivity. Qed.

Lemma chain_built : construct_tree chain_tokens = Ret chain_tree.
Proof. reflexivity. Qed.

Lemma chain_tree_false fuel :
  evaluate_tree (4 + fuel) chain_tree chain_event = Ret false.
Proof.
  unfold chain_tree. rewrite evaluate_tree_denote.
  - vm_compute. reflexivity.
  - simpl. auto.
  - simpl. lia.
Qed.

(** The builder does not follow the conventional reading on every valid
    sequence. *)
Lemma conventional_reading_not_followed :
  ~ (forall tokens e ev t fuel,
       reads LDisj tokens e -> construct_tree tokens = Ret t ->
       tree_height t <= fuel ->
       evaluate_tree fuel t ev = Ret (eval_expr ev e)).
Proof.
  intros H.
  assert (evaluate_tree (4 + 0) chain_tree chain_event
          = Ret (eval_expr chain_event chain_reading)) as Habs.
  { apply (H chain_tokens); [exact chain_reads | exact chain_built |].
    unfold tree_height. simpl. lia. }
  rewrite chain_tree_false, chain_reading_true in Habs.
  discriminate Habs.
Qed.

(** ** Claims *)

(** C1. The builder does not follow the conventional reading after an
    ["and"] chain: [a=1 and b=1 and c=1 or d=1] is a valid sequence that
    reads as [((a and b) and c) or d], true on the event where only [d=1]
    holds, while the tree [construct_tree] returns for it is that of
    [a and ((b and c) or d)], which evaluates to false on that event. *)
Theorem construct_tree_and_chain_then_or :
  valid_infix chain_tokens /\
  reads LDisj chain_tokens chain_reading /\
  eval_expr chain_event chain_reading = true /\
  construct_tree chain_tokens = Ret chain_tree /\
  forall fuel, evaluate_tree (4 + fuel) chain_tree chain_event = Ret false.
Proof.
  split; [exact (reads_valid _ _ _ chain_reads)|].
  split; [exact chain_reads|].
  split; [exact chain_reading_true|].
  split; [exact chain_built | exact chain_tree_false].
Qed.

(** C2. [A and B or C] is built as the tree of [(A and B) or C], and
    evaluates to that expression on every event, not to [A and (B or C)]. *)
Theorem construct_tree_and_then_or A B C :
  construct_tree [TOperand A; TStr "and"; TOperand B; TStr "or"; TOperand C]
    = Ret (mkTree (Some (internal "or" (internal "and" (leaf A) (leaf B))
                                       (leaf C)))) /\
  construct_tree [TOperand A; TStr "and"; TOperand B; TStr "or"; TOperand C]
    <> Ret (mkTree (Some (internal "and" (leaf A)
                                         (internal "or" (leaf B) (leaf C))))) /\
  forall ev fuel,
    evaluate_tree (3 + fuel)
      (mkTree (Some (internal "or" (internal "and" (leaf A) (leaf B))
                                   (leaf C)))) ev
    = Ret ((operand_value ev A && operand_value ev B) || operand_value ev C).
Proof.
  split; [reflexivity|]. split; [discriminate|].
  intros ev fuel. rewrite evaluate_tree_denote.
  - unfold internal, leaf. cbn [denote].
    rewrite !eval_to_bool_operand. reflexivity.
  - simpl. auto.
  - simpl. lia.
Qed.

(** The two groupings do differ on some event. *)
Example and_then_or_distinguishes :
  let ev : Event := {[ "c" := "1" ]} in
  let A := ("a", "1") in let B := ("b", "1") in let C := ("c", "1") in
  (operand_value ev A && operand_value ev B) || operand_value ev C = true /\
  operand_value ev A && (operand_value ev B || operand_value ev C) = false.
Proof. split; vm_compute; reflexivity. Qed.

(** C3. On a syntactically valid sequence [construct_tree] returns a tree
    with as many leaves as the sequence has operand tokens and as many
    internal nodes as it has ["and"]/["or"] tokens. *)
Theorem construct_tree_counts tokens :
  valid_infix tokens ->
  exists t n,
    construct_tree tokens = Ret t /\ root t = Some n /\
    count_leaves n = operand_tokens tokens /\
    count_internal n = operator_tokens tokens.
Proof.
  intros Hvalid.
  destruct (construct_tree_scan tokens (valid_infix_scan _ Hvalid 0))
    as (n & Heq & _ & Hl & Hi).
  exists (mkTree (Some n)), n. auto.
Qed.

Lemma construct_tree_counts_witness :
  valid_infix sample_tokens /\
  exists t n,
    construct_tree sample_tokens = Ret t /\ root t = Some n /\
    count_leaves n = operand_tokens sample_tokens /\
    count_internal n = operator_tokens sample_tokens.
Proof.
  split; [exact sample_tokens_valid|].
  exact (construct_tree_counts sample_tokens sample_tokens_valid).
Defined.

(** C4. A leaf holding [(field, value)] evaluates to true exactly when the
    event maps [field] to [value]; on an event without [field] it evaluates
    to false; it never raises. *)
Theorem leaf_semantics field value ev :
  (exists b,
     eval_to_bool (DOperand (field, value)) ev = Ret b /\
     (b = true <-> ev !! field = Some value)) /\
  eval_to_bool (DOperand (field, value)) (delete field ev) = Ret false /\
  (forall fuel self,
     evaluate (S fuel) (Some (leaf (field, value))) (mkStore self ev)
     = (Ret (bool_decide (ev !! field = Some value)), mkStore self ev)).
Proof.
  split; [|split].
  - exists (bool_decide (ev !! field = Some value)).
    split; [apply (eval_to_bool_operand (field, value))|].
    apply bool_decide_eq_true.
  - rewrite eval_to_bool_operand. unfold operand_value. simpl.
    rewrite lookup_delete_eq. reflexivity.
  - intros fuel self. rewrite evaluate_unfold. unfold leaf.
    cbn [leaf_check left right data fes].
    rewrite eval_to_bool_operand. reflexivity.
Qed.

(** String equality is exact: the case of the letters matters. *)
Example leaf_case_sensitive :
  eval_to_bool (DOperand ("evt.type", "blah")) {[ "evt.type" := "Blah" ]}
    = Ret false /\
  eval_to_bool (DOperand ("evt.type", "blah")) {[ "evt.type" := "blah" ]}
    = Ret true /\
  eval_to_bool (DOperand ("evt.type", "blah")) {[ "evt.type" := "hello" ]}
    = Ret false /\
  eval_to_bool (DOperand ("evt.type", "blah")) ∅ = Ret false.
Proof. repeat split; vm_compute; reflexivity. Qed.

(** C5. A token sequence with an unmatched closing parenthesis makes
    [construct_tree] raise [IndexError], the error of popping an empty stack:
    no tree is returned. *)
Theorem construct_tree_unmatched_close tokens :
  unmatched_close tokens -> construct_tree tokens = Raise IndexError.
Proof.
  intros (pre & post & -> & Hbal).
  unfold construct_tree.
  rewrite process_tokens_app.
  pose proof (process_tokens_outcome pre [] []) as Hout.
  destruct (process_tokens pre [] []) as [[ops nodes]|[]|] eqn:Hpre;
    simpl in Hout; try tauto.
  apply process_tokens_paren in Hpre.
  assert (count_paren ops = 0) as Hc.
  { change (count_paren []) with 0 in Hpre. lia. }
  cbn [mbind outcome_bind obind process_tokens].
  rewrite (process_token_close_raises ops nodes Hc). reflexivity.
Qed.

Lemma construct_tree_unmatched_close_witness :
  unmatched_close [TOperand ("a", "b"); TStr ")"] /\
  construct_tree [TOperand ("a", "b"); TStr ")"] = Raise IndexError.
Proof.
  assert (unmatched_close [TOperand ("a", "b"); TStr ")"]) as H.
  { exists [TOperand ("a", "b")], []. split; [reflexivity|].
    vm_compute. lia. }
  split; [exact H|].
  exact (construct_tree_unmatched_close _ H).
Defined.

(** C6. Every node of a tree built from a syntactically valid sequence is a
    leaf exactly when both children are absent; a leaf holds an operand; an
    internal node holds ["and"] or ["or"] and has both children. *)
Theorem construct_tree_node_invariant tokens :
  valid_infix tokens ->
  exists t n,
    construct_tree tokens = Ret t /\ root t = Some n /\
    Forall node_ok (subnodes n).
Proof.
  intros Hvalid.
  destruct (construct_tree_scan tokens (valid_infix_scan _ Hvalid 0))
    as (n & Heq & Hwf & _).
  exists (mkTree (Some n)), n.
  split; [exact Heq|]. split; [reflexivity|].
  apply well_formed_node_ok, Hwf.
Qed.

Lemma construct_tree_node_invariant_witness :
  valid_infix sample_tokens /\
  exists t n,
    construct_tree sample_tokens = Ret t /\ root t = Some n /\
    Forall node_ok (subnodes n).
Proof.
  split; [exact sample_tokens_valid|].
  exact (construct_tree_node_invariant sample_tokens sample_tokens_valid).
Defined.

(** C7. Two evaluations in a row of a built tree against one event, the
    second from the store the first one left, give the same outcome, and
    each leaves the store, hence the nodes of the tree, as it found it; when
    the tokens were a valid sequence the outcome is a boolean. *)
Theorem evaluate_idempotent tokens t ev fuel1 fuel2 :
  construct_tree tokens = Ret t ->
  tree_height t <= fuel1 -> tree_height t <= fuel2 ->
  exists r,
    r <> OutOfFuel /\
    evaluate fuel1 None (mkStore t ev) = (r, mkStore t ev) /\
    evaluate fuel2 None (evaluate fuel1 None (mkStore t ev)).2
      = (r, mkStore t ev) /\
    (valid_infix tokens -> exists b, r = Ret b).
Proof.
  intros Hbuilt Hfuel1 Hfuel2.
  destruct (construct_tree_full _ _ Hbuilt) as (n & Hroot & Hfull).
  destruct t as [rt]. simpl in Hroot. subst rt.
  unfold tree_height in *. simpl in Hfuel1, Hfuel2.
  assert (forall fuel, height n <= fuel ->
            evaluate fuel None (mkStore (mkTree (Some n)) ev)
            = (denote ev n, mkStore (mkTree (Some n)) ev)) as Hrun.
  { intros fuel Hfuel. rewrite (evaluate_None _ _ n) by reflexivity.
    apply evaluate_denote; assumption. }
  exists (denote ev n). split; [apply full_denote, Hfull|].
  split; [apply Hrun, Hfuel1|].
  split; [rewrite (Hrun fuel1 Hfuel1); apply Hrun, Hfuel2|].
  intros Hvalid.
  destruct (construct_tree_scan tokens (valid_infix_scan _ Hvalid 0))
    as (n' & Heq & Hwf & _).
  rewrite Hbuilt in Heq. injection Heq as <-.
  apply well_formed_denote, Hwf.
Qed.

Lemma evaluate_idempotent_witness :
  exists r,
    r <> OutOfFuel /\
    evaluate 1 None (mkStore (mkTree (Some (leaf ("a", "b")))) {[ "a" := "b" ]})
      = (r, mkStore (mkTree (Some (leaf ("a", "b")))) {[ "a" := "b" ]}) /\
    evaluate 2 None
      (evaluate 1 None
         (mkStore (mkTree (Some (leaf ("a", "b")))) {[ "a" := "b" ]})).2
      = (r, mkStore (mkTree (Some (leaf ("a", "b")))) {[ "a" := "b" ]}) /\
    (valid_infix [TOperand ("a", "b")] -> exists b, r = Ret b).
Proof.
  apply (evaluate_idempotent [TOperand ("a", "b")] _ {[ "a" := "b" ]} 1 2).
  - reflexivity.
  - unfold tree_height. simpl. lia.
  - unfold tree_height. simpl. lia.
Defined.

(** C8. On every tree [construct_tree] returns, whatever the tokens, and on
    every event, [evaluate] ends: with a fuel that covers the height of the
    tree the outcome is a result or an exception, the same for every such
    fuel, and it is never the exhaustion of the fuel. *)
Theorem evaluate_terminates tokens t ev :
  construct_tree tokens = Ret t ->
  exists r,
    r <> OutOfFuel /\
    forall fuel, tree_height t <= fuel -> evaluate_tree fuel t ev = r.
Proof.
  intros Hbuilt.
  destruct (construct_tree_full _ _ Hbuilt) as (n & Hroot & Hfull).
  destruct t as [rt]. simpl in Hroot. subst rt.
  exists (denote ev n). split; [apply full_denote, Hfull|].
  intros fuel Hfuel. apply evaluate_tree_denote; assumption.
Qed.

Lemma evaluate_terminates_witness :
  construct_tree [TOperand ("a", "b")] = Ret (mkTree (Some (leaf ("a", "b"))))
  /\ exists r,
       r <> OutOfFuel /\
       forall fuel,
         tree_height (mkTree (Some (leaf ("a", "b")))) <= fuel ->
         evaluate_tree fuel (mkTree (Some (leaf ("a", "b")))) {[ "a" := "b" ]}
         = r.
Proof.
  split; [reflexivity|].
  exact (evaluate_terminates [TOperand ("a", "b")] _ {[ "a" := "b" ]}
           eq_refl).
Defined.

(** C9. A tree whose root is absent evaluates to false, on every event. *)
Theorem evaluate_absent_root ev fuel :
  evaluate (S fuel) None (mkStore (mkTree None) ev)
    = (Ret false, mkStore (mkTree None) ev) /\
  evaluate_tree (S fuel) (mkTree None) ev = Ret false.
Proof. split; reflexivity. Qed.

(** A run of operand tokens only stacks their leaves. *)
Lemma process_tokens_operands os : forall ops nodes,
  process_tokens (TOperand <$> os) ops nodes =
  Ret (ops, reverse (leaf <$> os) ++ nodes).
Proof.
  induction os as [|o os IH]; intros ops nodes; simpl; [reflexivity|].
  rewrite IH, reverse_cons, <- app_assoc. reflexivity.
Qed.

(** C10. A sequence of two or more operands and nothing else raises no
    error: the tree returned is the leaf of the last operand, the other
    operands are dropped. *)
Theorem construct_tree_operands_only os :
  2 <= length os ->
  exists o,
    last os = Some o /\
    construct_tree (TOperand <$> os) = Ret (mkTree (Some (leaf o))).
Proof.
  intros Hlen.
  destruct (last os) as [o|] eqn:Hlast.
  - exists o. split; [reflexivity|].
    unfold construct_tree. rewrite process_tokens_operands. simpl.
    apply last_Some in Hlast as [os' ->].
    rewrite fmap_app, reverse_app. reflexivity.
  - apply last_None in Hlast. subst os. simpl in Hlen. lia.
Qed.

Lemma construct_tree_operands_only_witness :
  2 <= length [("a", "b"); ("c", "d")] /\
  construct_tree [TOperand ("a", "b"); TOperand ("c", "d")] =
    Ret (mkTree (Some (leaf ("c", "d")))).
Proof.
  split; [simpl; lia|].
  destruct (construct_tree_operands_only [("a", "b"); ("c", "d")])
    as (o & Hlast & Heq); [simpl; lia|].
  injection Hlast as <-. exact Heq.
Defined.

(** * Further properties *)

(** ** The tokenizer *)

Lemma split_cons sep c s :
  split sep (String c s) =
  if bool_decide (c = sep) then EmptyString :: split sep s
  else match split sep s with
       | piece :: pieces => String c piece :: pieces
       | [] => []
       end.
Proof.
  unfold split. simpl. destruct (split_pieces sep s) as [p ps].
  case_bool_decide; reflexivity.
Qed.

Lemma split_length sep s : length (split sep s) = S (count_char sep s).
Proof.
  induction s as [|c s IH]; [reflexivity|].
  rewrite split_cons. simpl. case_bool_decide; simpl.
  - now rewrite IH.
  - destruct (split sep s); simpl in *; lia.
Qed.

Lemma char_in_count sep s : char_in sep s = true <-> 0 < count_char sep s.
Proof.
  induction s as [|c s IH]; simpl.
  - split; [discriminate | lia].
  - case_bool_decide; simpl; [split; [lia | reflexivity] | exact IH].
Qed.

Lemma split_app sep s1 s2 :
  split sep (s1 +:+ String sep s2) = split sep s1 ++ split sep s2.
Proof.
  induction s1 as [|c s1 IH].
  - change (EmptyString +:+ String sep s2) with (String sep s2).
    rewrite split_cons, bool_decide_true by reflexivity. reflexivity.
  - change (String c s1 +:+ String sep s2) with (String c (s1 +:+ String sep s2)).
    rewrite !split_cons, IH. case_bool_decide; [reflexivity|].
    pose proof (split_length sep s1). destruct (split sep s1); [discriminate|].
    reflexivity.
Qed.

Lemma split_plain sep s : char_in sep s = false -> split sep s = [s].
Proof.
  induction s as [|c s IH]; [reflexivity|].
  simpl. intros H. apply orb_false_iff in H as [Hc Hs].
  rewrite split_cons, Hc, (IH Hs). reflexivity.
Qed.

Lemma split_pieces_plain sep s : Forall (fun p => char_in sep p = false) (split sep s).
Proof.
  induction s as [|c s IH]; [repeat constructor|].
  rewrite split_cons. case_bool_decide as Hc.
  - constructor; [reflexivity | exact IH].
  - destruct (split sep s) as [|p ps]; [constructor|].
    apply Forall_cons in IH as [Hp Hps]. constructor; [|exact Hps].
    simpl. rewrite Hp, bool_decide_false by exact Hc. reflexivity.
Qed.

Lemma split_join sep pieces :
  pieces <> [] ->
  Forall (fun p => char_in sep p = false) pieces ->
  split sep (join sep pieces) = pieces.
Proof.
  induction pieces as [|p ps IH]; [congruence|].
  intros _ H. apply Forall_cons in H as [Hp Hps].
  destruct ps as [|q ps].
  - simpl. now apply split_plain.
  - change (join sep (p :: q :: ps)) with (p +:+ String sep (join sep (q :: ps))).
    rewrite split_app, (split_plain _ _ Hp), IH by (congruence || assumption).
    reflexivity.
Qed.

Lemma to_tuple_Ret x :
  char_in "="%char x = true -> exists o, to_tuple x = Ret o.
Proof.
  intros H. apply char_in_count in H.
  pose proof (split_length "="%char x) as Hl.
  unfold to_tuple, index.
  destruct (split "="%char x) as [|a [|b l]]; simpl in Hl; try lia.
  eexists. reflexivity.
Qed.

Lemma tokenize_word_Ret x : exists t, tokenize_word x = Ret t.
Proof.
  unfold tokenize_word. destruct (char_in "="%char x) eqn:H; [|eauto].
  destruct (to_tuple_Ret x H) as [o ->]. eauto.
Qed.

Lemma comprehension_Ret {A B} (f : A -> outcome B) xs :
  (forall x, x ∈ xs -> exists y, f x = Ret y) ->
  exists ys, comprehension f xs = Ret ys /\ length ys = length xs.
Proof.
  induction xs as [|x xs IH]; intros H; simpl.
  - eexists; split; reflexivity.
  - destruct (H x) as [y ->]; [left|].
    destruct IH as (ys & -> & Hl); [intros; apply H; now right|].
    simpl. eexists; split; [reflexivity | simpl; lia].
Qed.

Lemma comprehension_app {A B} (f : A -> outcome B) xs1 xs2 ys1 ys2 :
  comprehension f xs1 = Ret ys1 -> comprehension f xs2 = Ret ys2 ->
  comprehension f (xs1 ++ xs2) = Ret (ys1 ++ ys2).
Proof.
  revert ys1. induction xs1 as [|x xs1 IH]; intros ys1 H1 H2; simpl in *.
  - injection H1 as <-. exact H2.
  - destruct (f x) as [y| |]; simpl in *; try discriminate.
    destruct (comprehension f xs1) as [ys| |]; simpl in *; try discriminate.
    injection H1 as <-. rewrite (IH ys eq_refl H2). reflexivity.
Qed.

Lemma char_in_app sep s1 s2 :
  char_in sep (s1 +:+ s2) = char_in sep s1 || char_in sep s2.
Proof.
  induction s1 as [|c s1 IH]; [reflexivity|].
  simpl. rewrite IH. now rewrite orb_assoc.
Qed.

Lemma to_tuple_text field value rest :
  char_in "="%char field = false -> char_in "="%char value = false ->
  to_tuple (field +:+ "=" +:+ value) = Ret (field, value) /\
  to_tuple (field +:+ "=" +:+ value +:+ "=" +:+ rest) = Ret (field, value).
Proof.
  intros Hf Hv. unfold to_tuple.
  change (field +:+ "=" +:+ value) with (field +:+ String "="%char value).
  change (field +:+ "=" +:+ value +:+ "=" +:+ rest)
    with (field +:+ String "="%char (value +:+ String "="%char rest)).
  rewrite !split_app, !(split_plain _ _ Hf), !(split_plain _ _ Hv).
  split; reflexivity.
Qed.

Lemma tokenize_word_text t :
  plain_token t -> tokenize_word (token_text t) = Ret t.
Proof.
  destruct t as [[field value]|s]; simpl; unfold tokenize_word.
  - intros [[_ Hf] [_ Hv]].
    change (field +:+ "=" +:+ value) with (field +:+ String "="%char value).
    rewrite char_in_app.
    replace (char_in "="%char (String "="%char value)) with true by reflexivity.
    rewrite orb_true_r.
    destruct (to_tuple_text field value "" Hf Hv) as [H _].
    change (field +:+ "=" +:+ value) with (field +:+ String "="%char value) in H.
    rewrite H. reflexivity.
  - intros [_ ->]. reflexivity.
Qed.

Lemma token_text_no_space t :
  plain_token t -> char_in " "%char (token_text t) = false.
Proof.
  destruct t as [[field value]|s]; simpl.
  - intros [[Hf _] [Hv _]]. rewrite char_in_app, Hf. simpl. exact Hv.
  - intros [H _]. exact H.
Qed.

Lemma comprehension_text tokens :
  Forall plain_token tokens ->
  comprehension tokenize_word (token_text <$> tokens) = Ret tokens.
Proof.
  induction 1 as [|t ts Ht _ IH]; [reflexivity|].
  rewrite fmap_cons. cbn [comprehension].
  rewrite (tokenize_word_text t Ht), IH. reflexivity.
Qed.

Lemma char_in_piece sep sep' s :
  char_in sep' s = false ->
  Forall (fun p => char_in sep' p = false) (split sep s).
Proof.
  induction s as [|c s IH]; [repeat constructor|].
  simpl. intros H. apply orb_false_iff in H as [Hc Hs].
  specialize (IH Hs). rewrite split_cons.
  destruct (bool_decide (c = sep)).
  - constructor; [reflexivity | exact IH].
  - destruct (split sep s) as [|p ps]; [constructor|].
    apply Forall_cons in IH as [Hp Hps]. constructor; [|exact Hps].
    simpl. now rewrite Hc, Hp.
Qed.

Lemma tokenize_word_plain x t :
  char_in " "%char x = false -> tokenize_word x = Ret t -> plain_token t.
Proof.
  intros Hx. unfold tokenize_word. destruct (char_in "="%char x) eqn:He.
  - unfold to_tuple, index.
    pose proof (split_pieces_plain "="%char x) as Heq.
    pose proof (char_in_piece "="%char " "%char x Hx) as Hsp.
    destruct (split "="%char x) as [|a [|b l]]; simpl; try discriminate.
    intros [= <-].
    apply Forall_cons in Heq as [Ha Heq]. apply Forall_cons in Heq as [Hb _].
    apply Forall_cons in Hsp as [Ha' Hsp]. apply Forall_cons in Hsp as [Hb' _].
    repeat split; assumption.
  - intros [= <-]. split; assumption.
Qed.

(** X1.  Tokenizing never raises: the index [1] of [to_tuple] is reached only
    on a word that holds an ["="], whose split has two pieces at least.  The
    result has one token more than the string has spaces. *)
Theorem tokenize_total s :
  exists tokens,
    tokenize s = Ret tokens /\ length tokens = S (count_char " "%char s).
Proof.
  unfold tokenize.
  destruct (comprehension_Ret tokenize_word (split " "%char s)) as (ys & H & Hl).
  - intros x _. apply tokenize_word_Ret.
  - exists ys. split; [exact H|]. rewrite Hl. apply split_length.
Qed.

(** X2.  Tokenizing distributes over a space: the tokens of [s1 ++ " " ++ s2]
    are the tokens of [s1] followed by the tokens of [s2]. *)
Theorem tokenize_app s1 s2 tokens1 tokens2 :
  tokenize s1 = Ret tokens1 -> tokenize s2 = Ret tokens2 ->
  tokenize (s1 +:+ " " +:+ s2) = Ret (tokens1 ++ tokens2).
Proof.
  unfold tokenize. intros H1 H2.
  change (s1 +:+ " " +:+ s2) with (s1 +:+ String " "%char s2).
  rewrite split_app. now apply comprehension_app.
Qed.

Lemma tokenize_app_witness :
  tokenize ("a=1" +:+ " " +:+ "and b=1")
  = Ret ([TOperand ("a", "1")] ++ [TStr "and"; TOperand ("b", "1")]).
Proof. apply tokenize_app; reflexivity. Defined.

(** X3.  Round trip: a non-empty sequence of tokens free of spaces and of
    stray ["="], written out with single spaces, tokenizes back to itself. *)
Theorem tokenize_condition_text tokens :
  tokens <> [] -> Forall plain_token tokens ->
  tokenize (condition_text tokens) = Ret tokens.
Proof.
  intros Hne Hpl. unfold tokenize, condition_text.
  rewrite split_join.
  - now apply comprehension_text.
  - destruct tokens; [congruence | discriminate].
  - apply Forall_fmap. eapply Forall_impl; [exact Hpl|].
    intros t Ht. now apply token_text_no_space.
Qed.

Lemma tokenize_condition_text_witness :
  tokenize (condition_text sample_tokens) = Ret sample_tokens.
Proof.
  apply tokenize_condition_text; [discriminate|].
  repeat constructor.
Defined.

(** X4.  Every token the tokenizer yields is free of spaces, and free of
    ["="]: an operand's field and value are the first two pieces between
    ["="] signs. *)
Theorem tokenize_plain s tokens :
  tokenize s = Ret tokens -> Forall plain_token tokens.
Proof.
  unfold tokenize. pose proof (split_pieces_plain " "%char s) as H.
  revert tokens. induction H as [|x xs Hx _ IH]; intros tokens; simpl.
  - intros [= <-]. constructor.
  - destruct (tokenize_word x) as [t| |] eqn:Ht; simpl; try discriminate.
    destruct (comprehension tokenize_word xs) as [ts| |]; simpl; try discriminate.
    intros [= <-]. constructor; [|now apply IH].
    eapply tokenize_word_plain; eassumption.
Qed.

Lemma tokenize_plain_witness :
  Forall plain_token [TOperand ("a", "b"); TStr ""; TStr "or"].
Proof. apply (tokenize_plain "a=b=c  or"). reflexivity. Defined.

(** X5.  What follows a second ["="] in a word is dropped: only the first two
    pieces of the split are kept. *)
Theorem to_tuple_second_equals field value rest :
  char_in "="%char field = false -> char_in "="%char value = false ->
  to_tuple (field +:+ "=" +:+ value +:+ "=" +:+ rest) = Ret (field, value).
Proof. intros Hf Hv. now apply to_tuple_text. Qed.

Lemma to_tuple_second_equals_witness :
  to_tuple ("fd.name" +:+ "=" +:+ "a" +:+ "=" +:+ "b=c") = Ret ("fd.name", "a").
Proof. apply to_tuple_second_equals; reflexivity. Defined.

(** ** Invariants of the builder on arbitrary sequences *)

Section Preservation.
(** A property [T] of the tokens read, [Q] of the strings on the operator
    stack and [P] of the nodes on the operand stack, such that a leaf of a
    [T] operand is [P], a [T] string other than [")"] is [Q], and a node of
    a [Q] operator over two [P] nodes is [P]. *)
Variable T : Token -> Prop.
Variable Q : string -> Prop.
Variable P : Node -> Prop.
Hypothesis P_leaf : forall o, T (TOperand o) -> P (mkNode (DOperand o) None None).
Hypothesis Q_push : forall s, T (TStr s) -> s <> ")" -> Q s.
Hypothesis P_node :
  forall s l r, Q s -> P l -> P r -> P (mkNode (DStr s) (Some l) (Some r)).

Lemma reduce_top_pres top nodes nodes' :
  Q top -> Forall P nodes -> reduce_top top nodes = Ret nodes' ->
  Forall P nodes'.
Proof.
  intros Hq Hp (r & l & rest & -> & ->)%reduce_top_Ret.
  apply Forall_cons in Hp as [Hr Hp]. apply Forall_cons in Hp as [Hl Hp].
  constructor; [now apply P_node | exact Hp].
Qed.

Lemma reduce_to_paren_pres ops : forall nodes ops' nodes',
  Forall Q ops -> Forall P nodes ->
  reduce_to_paren ops nodes = Ret (ops', nodes') ->
  Forall Q ops' /\ Forall P nodes'.
Proof.
  induction ops as [|top ops IH]; intros nodes ops' nodes' Hq Hp; simpl.
  - intros [= <- <-]. auto.
  - case_bool_decide.
    + intros [= <- <-]. auto.
    + apply Forall_cons in Hq as [Htop Hq].
      intros (nodes1 & H1 & H2)%bind_Ret.
      eapply IH; [exact Hq | | exact H2].
      eapply reduce_top_pres; eassumption.
Qed.

Lemma empty_the_stack_pres ops : forall nodes nodes',
  Forall Q ops -> Forall P nodes ->
  empty_the_stack ops nodes = Ret nodes' -> Forall P nodes'.
Proof.
  induction ops as [|top ops IH]; intros nodes nodes' Hq Hp; simpl.
  - intros [= <-]. assumption.
  - apply Forall_cons in Hq as [Htop Hq].
    intros (nodes1 & H1 & H2)%bind_Ret.
    eapply IH; [exact Hq | | exact H2].
    eapply reduce_top_pres; eassumption.
Qed.

Lemma process_token_pres t ops nodes ops' nodes' :
  T t -> Forall Q ops -> Forall P nodes ->
  process_token t ops nodes = Ret (ops', nodes') ->
  Forall Q ops' /\ Forall P nodes'.
Proof.
  intros Ht Hq Hp. destruct t as [o|s]; cbn [process_token].
  - intros [= <- <-]. split; [assumption|]. constructor; auto.
  - destruct (bool_decide (s = "or") && bool_decide (head ops = Some "and"))
      eqn:Hprec.
    + apply andb_true_iff in Hprec as [Hs%bool_decide_eq_true _].
      destruct ops as [|top ops]; [destruct nodes; discriminate|].
      rewrite reduce_cons.
      intros ([ops1 nodes1] & (nodes2 & H1 & [= <- <-])%bind_Ret
                & [= <- <-])%bind_Ret.
      apply Forall_cons in Hq as [Htop Hq]. split.
      * constructor; [|exact Hq]. apply Q_push; [exact Ht|]. subst s.
        discriminate.
      * eapply reduce_top_pres; eassumption.
    + clear Hprec. case_bool_decide as Hclose.
      * unfold close_paren.
        intros ([ops1 nodes1] & H1 & H2)%bind_Ret.
        destruct ops1 as [|p ops1]; [discriminate|].
        simpl in H2. injection H2 as <- <-.
        destruct (reduce_to_paren_pres _ _ _ _ Hq Hp H1) as [Hq1 Hp1].
        apply Forall_cons in Hq1 as [_ Hq1]. auto.
      * intros [= <- <-]. split; [|assumption].
        constructor; [|assumption]. now apply Q_push.
Qed.

Lemma process_tokens_pres tokens : forall ops nodes ops' nodes',
  Forall T tokens -> Forall Q ops -> Forall P nodes ->
  process_tokens tokens ops nodes = Ret (ops', nodes') ->
  Forall Q ops' /\ Forall P nodes'.
Proof.
  induction tokens as [|t tokens IH]; intros ops nodes ops' nodes' Ht Hq Hp;
    simpl.
  - intros [= <- <-]. auto.
  - apply Forall_cons in Ht as [Ht Hts].
    intros ([ops1 nodes1] & H1 & H2)%bind_Ret.
    destruct (process_token_pres _ _ _ _ _ Ht Hq Hp H1) as [Hq1 Hp1].
    eapply IH; eassumption.
Qed.

Lemma construct_tree_pres tokens t :
  Forall T tokens -> construct_tree tokens = Ret t ->
  exists n, root t = Some n /\ P n.
Proof.
  unfold construct_tree.
  intros Ht ([ops nodes] & H1 & (nodes' & H2 & H3)%bind_Ret)%bind_Ret.
  destruct nodes' as [|n rest]; [discriminate|].
  simpl in H3. injection H3 as <-.
  exists n. split; [reflexivity|].
  destruct (process_tokens_pres _ _ _ _ _ Ht (Forall_nil_2 Q) (Forall_nil_2 P) H1)
    as [Hq Hp].
  pose proof (empty_the_stack_pres _ _ _ Hq Hp H2) as Hn.
  now apply Forall_cons in Hn as [Hn _].
Qed.
End Preservation.

Lemma built_from_construct_tree tokens t :
  construct_tree tokens = Ret t ->
  exists n, root t = Some n /\ built_from tokens n.
Proof.
  apply (construct_tree_pres
           (fun t => t ∈ tokens)
           (fun s => TStr s ∈ tokens /\ s <> ")")
           (built_from tokens)).
  - intros o Ho. exact Ho.
  - intros s Hs Hne. split; assumption.
  - intros s l r Hs Hl Hr. cbn [built_from]. auto.
  - apply Forall_forall. auto.
Qed.

(** X6.  Whatever the tokens, a tree the builder returns is made of them:
    every leaf holds an operand token of the input and has no child, every
    other node holds a string token of the input, never [")"], and has both
    children. *)
Theorem construct_tree_built_from tokens t :
  construct_tree tokens = Ret t ->
  exists n, root t = Some n /\ built_from tokens n.
Proof. apply built_from_construct_tree. Qed.

Lemma construct_tree_built_from_witness :
  exists n,
    root (mkTree (Some (internal "(" (leaf ("a", "1")) (leaf ("b", "1")))))
      = Some n /\
    built_from [TOperand ("a", "1"); TStr "("; TOperand ("b", "1")] n.
Proof.
  apply (construct_tree_built_from
           [TOperand ("a", "1"); TStr "("; TOperand ("b", "1")]).
  reflexivity.
Defined.

Lemma reduce_top_underflow top nodes :
  length nodes < 2 -> reduce_top top nodes = Raise IndexError.
Proof. destruct nodes as [|r [|l rest]]; simpl; [reflexivity..|lia]. Qed.

Lemma empty_the_stack_underflow ops : forall nodes,
  ops <> [] -> length nodes <= length ops ->
  empty_the_stack ops nodes = Raise IndexError.
Proof.
  induction ops as [|top ops IH]; intros nodes Hne Hlen; [congruence|].
  simpl in *. destruct nodes as [|r [|l rest]]; try reflexivity.
  cbn [reduce_top pop mbind outcome_bind obind].
  destruct ops as [|top' ops]; [simpl in Hlen; lia|].
  apply IH; [discriminate | simpl in *; lia].
Qed.

Lemma process_token_no_operand s ops :
  process_token (TStr s) ops [] = Raise IndexError \/
  exists ops', process_token (TStr s) ops [] = Ret (ops', []).
Proof.
  cbn [process_token].
  destruct (bool_decide (s = "or") && bool_decide (head ops = Some "and")).
  - left. reflexivity.
  - case_bool_decide; [|right; eauto].
    unfold close_paren. destruct ops as [|top ops]; [left; reflexivity|].
    simpl. case_bool_decide; [right; eauto | left; reflexivity].
Qed.

Lemma process_tokens_no_operand tokens : forall ops,
  operand_tokens tokens = 0 ->
  process_tokens tokens ops [] = Raise IndexError \/
  exists ops', process_tokens tokens ops [] = Ret (ops', []).
Proof.
  induction tokens as [|t tokens IH]; intros ops H; [right; simpl; eauto|].
  unfold operand_tokens in *. rewrite count_if_cons in H.
  destruct t as [o|s]; [simpl in H; lia|].
  cbn [process_tokens].
  destruct (process_token_no_operand s ops) as [-> | [ops' ->]];
    [left; reflexivity|].
  apply IH. simpl in H. lia.
Qed.

(** X7.  A sequence without an operand token, the empty sequence included,
    makes the builder raise [IndexError]. *)
Theorem construct_tree_no_operand tokens :
  operand_tokens tokens = 0 -> construct_tree tokens = Raise IndexError.
Proof.
  intros H. unfold construct_tree.
  destruct (process_tokens_no_operand tokens [] H) as [-> | [ops ->]];
    [reflexivity|].
  cbn [mbind outcome_bind obind].
  destruct ops as [|top ops]; reflexivity.
Qed.

Lemma construct_tree_no_operand_witness :
  construct_tree [] = Raise IndexError /\
  construct_tree [TStr "("; TStr "and"; TStr ")"] = Raise IndexError.
Proof. split; apply construct_tree_no_operand; reflexivity. Defined.

(** ** Incomplete expressions *)

Lemma allowed_length ops :
  Forall allowed ops -> length ops = count_logical ops + count_paren ops.
Proof.
  unfold count_logical, count_paren.
  induction 1 as [|s ops Hs _ IH]; [reflexivity|].
  rewrite !count_if_cons. simpl length.
  apply allowed_cases in Hs as [[-> Hl] | (_ & Hl & Hne)].
  - rewrite Hl, bool_decide_true by reflexivity. lia.
  - rewrite Hl, bool_decide_false by exact Hne. lia.
Qed.

Lemma construct_tree_scan_incomplete tokens st :
  scan tokens (true, 0) = Some st -> st <> (false, 0) ->
  construct_tree tokens = Raise IndexError.
Proof.
  intros Hscan Hst.
  assert (stacks_inv (true, 0) [] [] 0 0) as Hinv.
  { unfold stacks_inv. simpl. repeat split; auto. }
  destruct (process_tokens_valid _ _ _ _ _ _ _ Hinv Hscan)
    as (ops & nodes & Heq & Hal & Hp & Hlen & _).
  unfold construct_tree. rewrite Heq. cbn [mbind outcome_bind obind].
  pose proof (allowed_length ops Hal) as Hops.
  destruct st as [expect depth]. cbn [fst snd] in *.
  assert (length nodes <= length ops) as Hle.
  { destruct expect; [lia|]. destruct depth; [congruence | lia]. }
  destruct ops as [|top ops].
  - destruct nodes; [reflexivity | simpl in Hle; lia].
  - rewrite empty_the_stack_underflow; [reflexivity | discriminate | exact Hle].
Qed.

Lemma scan_closing k : forall expect depth,
  scan (replicate (S k) (TStr ")")) (expect, depth) = Some (false, 0) ->
  expect = false /\ depth = S k.
Proof.
  induction k as [|k IH]; intros expect depth.
  - simpl. destruct expect; [discriminate|].
    destruct depth as [|[|d]]; try discriminate. auto.
  - change (replicate (S (S k)) (TStr ")"))
      with (TStr ")" :: replicate (S k) (TStr ")")).
    cbn [scan]. cbn [scan_token]. simpl is_logical. simpl bool_decide.
    cbv iota.
    destruct expect; [discriminate|]. destruct depth as [|d]; [discriminate|].
    intros H. apply IH in H as [_ ->]. auto.
Qed.

(** X8.  A dangling operator: a valid sequence followed by ["and"] or ["or"]
    makes the builder raise [IndexError]. *)
Theorem construct_tree_dangling_operator tokens op :
  valid_infix tokens -> op = "and" \/ op = "or" ->
  construct_tree (tokens ++ [TStr op]) = Raise IndexError.
Proof.
  intros Hv Hop.
  apply (construct_tree_scan_incomplete _ (true, 0)); [|discriminate].
  rewrite scan_app, (valid_infix_scan _ Hv). cbn [scan scan_token].
  apply is_logical_true in Hop as ->. reflexivity.
Qed.

Lemma construct_tree_dangling_operator_witness :
  construct_tree ([TOperand ("a", "1")] ++ [TStr "and"]) = Raise IndexError.
Proof.
  apply construct_tree_dangling_operator; [constructor | left; reflexivity].
Defined.

(** X9.  An unclosed parenthesis: a sequence that lacks one or more final
    [")"] to be valid makes the builder raise [IndexError]. *)
Theorem construct_tree_unclosed tokens k :
  valid_infix (tokens ++ replicate (S k) (TStr ")")) ->
  construct_tree tokens = Raise IndexError.
Proof.
  intros Hv. pose proof (valid_infix_scan _ Hv 0) as Hscan.
  rewrite scan_app in Hscan.
  destruct (scan tokens (true, 0)) as [[expect depth]|] eqn:Hst;
    [|discriminate].
  apply scan_closing in Hscan as [-> ->].
  apply (construct_tree_scan_incomplete _ _ Hst). discriminate.
Qed.

Lemma construct_tree_unclosed_witness :
  construct_tree
    [TOperand ("a", "1"); TStr "and"; TStr "("; TOperand ("b", "1")]
  = Raise IndexError.
Proof.
  apply (construct_tree_unclosed _ 0).
  apply (valid_binary [TOperand ("a", "1")] "and"
           [TStr "("; TOperand ("b", "1"); TStr ")"]).
  - constructor.
  - left; reflexivity.
  - apply (valid_group [TOperand ("b", "1")]). constructor.
Defined.

(** ** Frames: what lies below the part of the stacks a run works on *)

Lemma reduce_top_frame top nodes nodes' extra :
  reduce_top top nodes = Ret nodes' ->
  reduce_top top (nodes ++ extra) = Ret (nodes' ++ extra).
Proof. intros (r & l & rest & -> & ->)%reduce_top_Ret. reflexivity. Qed.

Lemma empty_the_stack_frame ops : forall nodes nodes' extra,
  empty_the_stack ops nodes = Ret nodes' ->
  empty_the_stack ops (nodes ++ extra) = Ret (nodes' ++ extra).
Proof.
  induction ops as [|top ops IH]; intros nodes nodes' extra; simpl.
  - intros [= <-]. reflexivity.
  - intros (nodes1 & H1 & H2)%bind_Ret.
    rewrite (reduce_top_frame _ _ _ extra H1). simpl. now apply IH.
Qed.

Lemma close_paren_frame ops : forall nodes ops' nodes' base extra,
  close_paren ops nodes = Ret (ops', nodes') ->
  close_paren (ops ++ base) (nodes ++ extra) = Ret (ops' ++ base, nodes' ++ extra).
Proof.
  unfold close_paren.
  induction ops as [|top ops IH]; intros nodes ops' nodes' base extra.
  - simpl. discriminate.
  - cbn [reduce_to_paren app]. case_bool_decide as Htop.
    + simpl. intros [= <- <-]. reflexivity.
    + intros ([ops1 nodes1] & (nodes2 & H1 & H2)%bind_Ret & H3)%bind_Ret.
      rewrite (reduce_top_frame _ _ _ extra H1).
      cbn [mbind outcome_bind obind].
      apply IH. rewrite H2. exact H3.
Qed.

Lemma process_token_frame t ops nodes ops' nodes' base extra :
  head base <> Some "and" ->
  process_token t ops nodes = Ret (ops', nodes') ->
  process_token t (ops ++ base) (nodes ++ extra)
  = Ret (ops' ++ base, nodes' ++ extra).
Proof.
  intros Hbase. destruct t as [o|s]; cbn [process_token].
  - intros [= <- <-]. reflexivity.
  - assert (bool_decide (head (ops ++ base) = Some "and")
            = bool_decide (head ops = Some "and")) as ->.
    { destruct ops as [|top ops]; [|reflexivity].
      apply bool_decide_ext. cbn [app head].
      split; [intros H; contradiction | discriminate]. }
    destruct (bool_decide (s = "or") && bool_decide (head ops = Some "and")).
    + destruct ops as [|top ops]; [destruct nodes; discriminate|].
      cbn [app]. rewrite !reduce_cons.
      intros ([ops1 nodes1] & (nodes2 & H1 & [= <- <-])%bind_Ret
                & [= <- <-])%bind_Ret.
      rewrite (reduce_top_frame _ _ _ extra H1). reflexivity.
    + case_bool_decide.
      * apply close_paren_frame.
      * intros [= <- <-]. reflexivity.
Qed.

Lemma process_tokens_frame tokens : forall ops nodes ops' nodes' base extra,
  head base <> Some "and" ->
  process_tokens tokens ops nodes = Ret (ops', nodes') ->
  process_tokens tokens (ops ++ base) (nodes ++ extra)
  = Ret (ops' ++ base, nodes' ++ extra).
Proof.
  induction tokens as [|t tokens IH];
    intros ops nodes ops' nodes' base extra Hbase; simpl.
  - intros [= <- <-]. reflexivity.
  - intros ([ops1 nodes1] & H1 & H2)%bind_Ret.
    rewrite (process_token_frame _ _ _ _ _ base extra Hbase H1). simpl.
    now apply IH.
Qed.

(** X10.  Stray operands in front are dropped without a word: whenever a
    sequence builds a tree, the sequence with any operands put before it
    builds the same tree. *)
Theorem construct_tree_leading_operands os tokens t :
  construct_tree tokens = Ret t ->
  construct_tree ((TOperand <$> os) ++ tokens) = Ret t.
Proof.
  unfold construct_tree.
  intros ([ops nodes] & H1 & (nodes' & H2 & H3)%bind_Ret)%bind_Ret.
  rewrite process_tokens_app, process_tokens_operands.
  cbn [mbind outcome_bind obind].
  pose proof (process_tokens_frame _ _ _ _ _ []
                (reverse (leaf <$> os) ++ []) ltac:(discriminate) H1) as Hf.
  rewrite app_nil_r in Hf. cbn [app] in Hf. rewrite Hf.
  cbn [mbind outcome_bind obind]. rewrite app_nil_r.
  rewrite (empty_the_stack_frame _ _ _ _ H2).
  cbn [mbind outcome_bind obind].
  destruct nodes' as [|n rest]; [discriminate|]. exact H3.
Qed.

Lemma construct_tree_leading_operands_witness :
  construct_tree
    ((TOperand <$> [("x", "1"); ("y", "2")])
       ++ [TOperand ("a", "1"); TStr "or"; TOperand ("b", "1")])
  = Ret (mkTree (Some (internal "or" (leaf ("a", "1")) (leaf ("b", "1"))))).
Proof. apply construct_tree_leading_operands. reflexivity. Defined.

Lemma count_paren_0 ops : count_paren ops = 0 -> Forall (fun s => s <> "(") ops.
Proof.
  unfold count_paren. induction ops as [|s ops IH]; [constructor|].
  rewrite count_if_cons. case_bool_decide as Hs; [lia|].
  intros Hc. constructor; [exact Hs | apply IH; lia].
Qed.

Lemma reduce_to_paren_empty ops : forall nodes rest,
  Forall (fun s => s <> "(") ops ->
  reduce_to_paren (ops ++ "(" :: rest) nodes =
  (nodes' ← empty_the_stack ops nodes; Ret ("(" :: rest, nodes')).
Proof.
  induction ops as [|top ops IH]; intros nodes rest Hops.
  - simpl. reflexivity.
  - apply Forall_cons in Hops as [Htop Hops].
    cbn [app reduce_to_paren empty_the_stack].
    rewrite bool_decide_false by exact Htop.
    destruct (reduce_top top nodes) as [nodes1| |]; [|reflexivity..].
    cbn [mbind outcome_bind obind]. now apply IH.
Qed.

(** X11.  Parentheses around a whole valid sequence change nothing: the
    builder returns the same tree with and without them. *)
Theorem construct_tree_outer_parentheses tokens :
  valid_infix tokens ->
  construct_tree (TStr "(" :: tokens ++ [TStr ")"]) = construct_tree tokens.
Proof.
  intros Hv. pose proof (valid_infix_scan _ Hv 0) as Hscan.
  assert (stacks_inv (true, 0) [] [] 0 0) as Hinv.
  { unfold stacks_inv. simpl. repeat split; auto. }
  destruct (process_tokens_valid _ _ _ _ _ _ _ Hinv Hscan)
    as (ops & nodes & Heq & Hal & Hp & Hlen & Hwf & _).
  cbn [fst snd] in *.
  destruct (empty_the_stack_valid ops nodes Hal Hp Hlen Hwf)
    as (n & Heq' & _).
  unfold construct_tree at 2. rewrite Heq. cbn [mbind outcome_bind obind].
  rewrite Heq'. cbn [mbind outcome_bind obind pop].
  unfold construct_tree. cbn [process_tokens].
  change (process_token (TStr "(") [] []) with (Ret (["("], @nil Node)).
  cbn [mbind outcome_bind obind]. rewrite process_tokens_app.
  pose proof (process_tokens_frame _ _ _ _ _ ["("] [] ltac:(discriminate) Heq)
    as Hf.
  rewrite !app_nil_r in Hf. cbn [app] in Hf. rewrite Hf.
  cbn [mbind outcome_bind obind process_tokens].
  change (process_token (TStr ")") (ops ++ ["("]) nodes)
    with (close_paren (ops ++ ["("]) nodes).
  unfold close_paren.
  rewrite reduce_to_paren_empty by (apply count_paren_0, Hp).
  rewrite Heq'. reflexivity.
Qed.

Lemma construct_tree_outer_parentheses_witness :
  construct_tree (TStr "(" :: sample_tokens ++ [TStr ")"])
  = construct_tree sample_tokens.
Proof.
  apply construct_tree_outer_parentheses, sample_tokens_valid.
Defined.

(** ** Chains of one operator *)

Lemma replicate_cons_middle {A} n (x : A) l :
  replicate n x ++ x :: l = x :: replicate n x ++ l.
Proof. induction n as [|n IH]; simpl; [reflexivity | now rewrite IH]. Qed.

Lemma process_tokens_chain op os : forall ops nodes,
  op <> ")" -> (op = "or" -> head ops <> Some "and") ->
  process_tokens (flat_map (fun o => [TOperand o; TStr op]) os) ops nodes
  = Ret (replicate (length os) op ++ ops, reverse (leaf <$> os) ++ nodes).
Proof.
  induction os as [|o os IH]; intros ops nodes Hclose Hor; [reflexivity|].
  cbn [flat_map app process_tokens process_token mbind outcome_bind obind].
  assert (bool_decide (op = "or") && bool_decide (head ops = Some "and") = false)
    as ->.
  { apply andb_false_iff. destruct (decide (op = "or")) as [Heq|Hne].
    - right. apply bool_decide_eq_false, Hor, Heq.
    - left. apply bool_decide_eq_false, Hne. }
  rewrite bool_decide_false by exact Hclose.
  cbn [mbind outcome_bind obind]. rewrite IH.
  - rewrite fmap_cons, reverse_cons, <- app_assoc. cbn [length replicate app].
    rewrite replicate_cons_middle. reflexivity.
  - exact Hclose.
  - intros ->. discriminate.
Qed.

Lemma empty_the_stack_fold op ns : forall z ops rest,
  empty_the_stack (replicate (length ns) op ++ ops) (z :: ns ++ rest)
  = empty_the_stack ops (foldl (fun acc n => internal op n acc) z ns :: rest).
Proof.
  induction ns as [|n ns IH]; intros z ops rest; [reflexivity|].
  cbn [length replicate app empty_the_stack reduce_top pop mbind outcome_bind
         obind foldl].
  apply IH.
Qed.

Lemma nest_foldl op os z :
  foldl (fun acc n => internal op n acc) z (reverse (leaf <$> os)) = nest op os z.
Proof.
  induction os as [|o os IH]; [reflexivity|].
  rewrite fmap_cons, reverse_cons, foldl_app. cbn [foldl].
  rewrite IH. reflexivity.
Qed.

Lemma nest_full op os z : full z -> full (nest op os z).
Proof. intros Hz. unfold nest. induction os as [|o os IH]; simpl; auto. Qed.

Lemma nest_height op os z : height (nest op os z) = length os + height z.
Proof.
  unfold nest. induction os as [|o os IH]; [reflexivity|].
  cbn [foldr]. unfold internal at 1. cbn [height from_option length].
  rewrite IH. unfold leaf. cbn [height from_option].
  destruct z; cbn [height]; lia.
Qed.

Lemma denote_nest_and ev os z b :
  denote ev z = Ret b ->
  denote ev (nest "and" os z) = Ret (forallb (operand_value ev) os && b).
Proof.
  intros Hz. unfold nest. induction os as [|o os IH]; [exact Hz|].
  cbn [foldr]. unfold internal at 1. unfold leaf at 1. cbn [denote].
  rewrite eval_to_bool_operand, IH. cbn [mbind outcome_bind obind].
  rewrite process_and. cbn [mbind outcome_bind obind forallb].
  now rewrite andb_assoc.
Qed.

(** X12.  A chain of operands joined by one operator is nested to the right:
    [o1 op o2 op ... op z] builds [op(o1, op(o2, ... z))], for every string
    [op] other than [")"]. *)
Theorem construct_tree_chain op os z :
  op <> ")" ->
  construct_tree (chain op os [TOperand z])
  = Ret (mkTree (Some (nest op os (leaf z)))).
Proof.
  intros Hclose. unfold construct_tree, chain.
  rewrite process_tokens_app, process_tokens_chain;
    [|exact Hclose | intros _; discriminate].
  cbn [mbind outcome_bind obind process_tokens process_token].
  change (mkNode (DOperand z) None None) with (leaf z).
  replace (length os) with (length (reverse (leaf <$> os)))
    by (now rewrite length_reverse, length_fmap).
  rewrite empty_the_stack_fold, nest_foldl. reflexivity.
Qed.

Lemma construct_tree_chain_witness :
  construct_tree (chain "and" [("a", "1"); ("b", "1")] [TOperand ("c", "1")])
  = Ret (mkTree (Some (internal "and" (leaf ("a", "1"))
                         (internal "and" (leaf ("b", "1")) (leaf ("c", "1")))))).
Proof. apply (construct_tree_chain "and"). discriminate. Defined.

(** X13.  A chain of ["and"] before [X and Y or Z]: only the last ["and"]
    is reduced when ["or"] arrives, so [o1 and ... and on and X and Y or Z]
    builds [o1 and (... (on and ((X and Y) or Z)))], which is false as soon
    as one of the [oi] is, whatever [Z]. *)
Theorem construct_tree_and_chain_or os X Y Z :
  construct_tree
    (chain "and" os
       [TOperand X; TStr "and"; TOperand Y; TStr "or"; TOperand Z])
  = Ret (mkTree (Some (nest "and" os
           (internal "or" (internal "and" (leaf X) (leaf Y)) (leaf Z))))) /\
  forall ev fuel,
    evaluate_tree (length os + 3 + fuel)
      (mkTree (Some (nest "and" os
         (internal "or" (internal "and" (leaf X) (leaf Y)) (leaf Z))))) ev
    = Ret (forallb (operand_value ev) os &&
           ((operand_value ev X && operand_value ev Y) || operand_value ev Z)).
Proof.
  split.
  - unfold construct_tree, chain.
    rewrite process_tokens_app, process_tokens_chain;
      [|discriminate | discriminate].
    cbn [mbind outcome_bind obind].
    change (process_tokens
              [TOperand X; TStr "and"; TOperand Y; TStr "or"; TOperand Z]
              (replicate (length os) "and" ++ [])
              (reverse (leaf <$> os) ++ []))
      with (Ret ("or" :: replicate (length os) "and" ++ [],
                 leaf Z :: internal "and" (leaf X) (leaf Y)
                   :: reverse (leaf <$> os) ++ [])).
    cbn [mbind outcome_bind obind empty_the_stack reduce_top pop].
    change (mkNode (DStr "or") (Some (internal "and" (leaf X) (leaf Y)))
              (Some (leaf Z)))
      with (internal "or" (internal "and" (leaf X) (leaf Y)) (leaf Z)).
    replace (length os) with (length (reverse (leaf <$> os)))
      by (now rewrite length_reverse, length_fmap).
    rewrite empty_the_stack_fold, nest_foldl. reflexivity.
  - intros ev fuel. rewrite evaluate_tree_denote.
    + apply denote_nest_and. unfold internal, leaf. cbn [denote].
      rewrite !eval_to_bool_operand. reflexivity.
    + apply nest_full. simpl. auto.
    + rewrite nest_height. simpl. lia.
Qed.

(** ** The evaluator on trees of any shape *)

Lemma full_dec n : full n \/ ~ full n.
Proof.
  induction n as [d l r IHl IHr] using Node_ind'.
  destruct l as [nl|], r as [nr|]; cbn [full from_option] in *; tauto.
Qed.

Lemma evaluate_not_full R fuel : forall node st,
  root (self st) = Some R -> ~ full R ->
  match node with Some m => ~ full m | None => True end ->
  forall b, (evaluate fuel node st).1 <> Ret b.
Proof.
  induction fuel as [|fuel IH]; intros node st Hroot HR Hnode b;
    [discriminate|].
  rewrite evaluate_unfold, Hroot.
  assert (exists m, match node with Some n => Some n | None => Some R end
                    = Some m /\ ~ full m) as (m & -> & Hm).
  { destruct node as [m|]; eauto. }
  destruct m as [d l r].
  destruct (leaf_check (mkNode d l r)) eqn:Hleaf.
  { exfalso. apply Hm. unfold leaf_check in Hleaf. cbn [left right] in Hleaf.
    destruct l, r; try discriminate. exact I. }
  cbn [left right data].
  assert (match l with Some m => ~ full m | None => True end \/
          match r with Some m => ~ full m | None => True end) as Hchild.
  { destruct l as [nl|], r as [nr|]; cbn [full] in Hm; auto.
    destruct (full_dec nl); [|auto]. right. tauto. }
  pose proof (evaluate_store fuel l st) as Hl.
  destruct (evaluate fuel l st) as [[x|e|] st1] eqn:Hel; cbn [fst snd] in *;
    subst st1; try discriminate.
  pose proof (evaluate_store fuel r st) as Hr.
  destruct (evaluate fuel r st) as [[y|e|] st2] eqn:Her; cbn [fst snd] in *;
    subst st2; try discriminate.
  exfalso. destruct Hchild as [Hc | Hc].
  - apply (IH l st Hroot HR Hc x). rewrite Hel. reflexivity.
  - apply (IH r st Hroot HR Hc y). rewrite Her. reflexivity.
Qed.

(** X14.  [evaluate] returns a verdict only on a tree whose nodes all have
    no child or two: below a node with a single child the missing child is
    [None], the call falls back to the root, and the recursion never ends. *)
Theorem evaluate_returns_full n ev fuel b :
  evaluate_tree fuel (mkTree (Some n)) ev = Ret b -> full n.
Proof.
  intros H. destruct (full_dec n) as [Hf|Hf]; [exact Hf|].
  exfalso. unfold evaluate_tree in H.
  exact (evaluate_not_full n fuel None (mkStore (mkTree (Some n)) ev)
           eq_refl Hf I b H).
Qed.

Lemma evaluate_returns_full_witness :
  full (internal "or" (leaf ("a", "1")) (leaf ("b", "2"))).
Proof.
  apply (evaluate_returns_full _ {[ "b" := "2" ]} 2 true). reflexivity.
Defined.

Lemma supported_dec d : supported d \/ ~ supported d.
Proof.
  unfold supported.
  destruct (decide (d = DStr "and")), (decide (d = DStr "or")); tauto.
Qed.

Lemma process_supported d :
  (supported d /\ exists f, process d = Ret f /\ (f = andb \/ f = orb)) \/
  (~ supported d /\ process d = Raise KeyError).
Proof.
  unfold supported, process. destruct d as [o|s].
  - right. split; [intros [?|?]; discriminate | reflexivity].
  - repeat case_bool_decide; subst.
    + left. split; [auto|]. eauto.
    + left. split; [auto|]. eauto.
    + right. split; [intros [[= ?]|[= ?]]; contradiction | reflexivity].
Qed.

Lemma built_from_full tokens n : built_from tokens n -> full n.
Proof.
  induction n as [d l r IHl IHr] using Node_ind'.
  destruct d as [o|s], l as [nl|], r as [nr|];
    cbn [built_from full from_option] in *; tauto.
Qed.

Lemma denote_built tokens ev n :
  built_from tokens n ->
  (Forall supported (operators n) /\ exists b, denote ev n = Ret b) \/
  (~ Forall supported (operators n) /\ denote ev n = Raise KeyError).
Proof.
  induction n as [d l r IHl IHr] using Node_ind'.
  destruct d as [o|s], l as [nl|], r as [nr|];
    cbn [built_from from_option] in *; try tauto.
  - intros _. left. cbn [operators leaf_check left right from_option app].
    split; [constructor|]. cbn [denote]. rewrite eval_to_bool_operand. eauto.
  - intros (_ & Hl & Hr).
    change (operators (mkNode (DStr s) (Some nl) (Some nr)))
      with (DStr s :: operators nl ++ operators nr).
    cbn [denote]. rewrite Forall_cons, Forall_app.
    destruct (IHl Hl) as [[Hsl [x ->]] | [Hsl ->]];
      [|right; split; [tauto | reflexivity]].
    destruct (IHr Hr) as [[Hsr [y ->]] | [Hsr ->]];
      [|right; split; [tauto | reflexivity]].
    cbn [mbind outcome_bind obind].
    destruct (process_supported (DStr s)) as [[Hs (f & -> & _)] | [Hs ->]].
    + left. split; [tauto | eauto].
    + right. split; [tauto | reflexivity].
Qed.

(** X15.  Evaluating a tree the builder returned never raises [IndexError]:
    it returns a verdict when every node with children holds ["and"] or
    ["or"], and raises [KeyError] otherwise, wherever the other string is in
    the tree and whatever the event: both children are evaluated before the
    operator is looked up. *)
Theorem evaluate_built tokens t ev fuel :
  construct_tree tokens = Ret t -> tree_height t <= fuel ->
  (Forall supported (tree_operators t) /\
   exists b, evaluate_tree fuel t ev = Ret b) \/
  (~ Forall supported (tree_operators t) /\
   evaluate_tree fuel t ev = Raise KeyError).
Proof.
  intros Hbuilt Hfuel.
  destruct (built_from_construct_tree _ _ Hbuilt) as (n & Hroot & Hn).
  destruct t as [rt]. simpl in Hroot. subst rt.
  unfold tree_operators, tree_height in *. cbn [root from_option] in *.
  rewrite evaluate_tree_denote by (eauto using built_from_full).
  now apply (denote_built tokens).
Qed.

Lemma evaluate_built_witness :
  construct_tree [TOperand ("a", "1"); TStr "xor"; TOperand ("b", "1")]
  = Ret (mkTree (Some (internal "xor" (leaf ("a", "1")) (leaf ("b", "1")))))
  /\ evaluate_tree 2
       (mkTree (Some (internal "xor" (leaf ("a", "1")) (leaf ("b", "1")))))
       ∅
     = Raise KeyError.
Proof.
  split; [reflexivity|].
  destruct (evaluate_built
              [TOperand ("a", "1"); TStr "xor"; TOperand ("b", "1")]
              (mkTree (Some (internal "xor" (leaf ("a", "1")) (leaf ("b", "1")))))
              ∅ 2 eq_refl (le_n 2)) as [[_ [b Hb]] | [_ H]].
  - discriminate Hb.
  - exact H.
Defined.

Lemma denote_local tokens ev1 ev2 n :
  built_from tokens n ->
  (forall field value,
     TOperand (field, value) ∈ tokens -> ev1 !! field = ev2 !! field) ->
  denote ev1 n = denote ev2 n.
Proof.
  intros Hn Hagree. revert Hn.
  induction n as [d l r IHl IHr] using Node_ind'.
  destruct d as [o|s], l as [nl|], r as [nr|];
    cbn [built_from from_option] in *; try tauto.
  - intros Ho. cbn [denote]. rewrite !eval_to_bool_operand.
    destruct o as [field value]. unfold operand_value. cbn [fst snd].
    rewrite (Hagree field value Ho). reflexivity.
  - intros (_ & Hl & Hr). cbn [denote]. rewrite (IHl Hl), (IHr Hr).
    reflexivity.
Qed.

(** X16.  The verdict depends on the event only through the fields named by
    the operands of the token sequence: two events that map each of these
    fields alike get the same outcome. *)
Theorem evaluate_local tokens t ev1 ev2 fuel :
  construct_tree tokens = Ret t -> tree_height t <= fuel ->
  (forall field value,
     TOperand (field, value) ∈ tokens -> ev1 !! field = ev2 !! field) ->
  evaluate_tree fuel t ev1 = evaluate_tree fuel t ev2.
Proof.
  intros Hbuilt Hfuel Hagree.
  destruct (built_from_construct_tree _ _ Hbuilt) as (n & Hroot & Hn).
  destruct t as [rt]. simpl in Hroot. subst rt.
  unfold tree_height in Hfuel. cbn [root from_option] in Hfuel.
  rewrite !evaluate_tree_denote by (eauto using built_from_full).
  now apply (denote_local tokens).
Qed.

Lemma evaluate_local_witness :
  evaluate_tree 2
    (mkTree (Some (internal "or" (leaf ("a", "1")) (leaf ("b", "2")))))
    {[ "a" := "1"; "c" := "3" ]}
  = evaluate_tree 2
      (mkTree (Some (internal "or" (leaf ("a", "1")) (leaf ("b", "2")))))
      {[ "a" := "1" ]}.
Proof.
  apply (evaluate_local
           [TOperand ("a", "1"); TStr "or"; TOperand ("b", "2")]);
    [reflexivity | cbv; lia |].
  intros field value H.
  apply elem_of_cons in H as [[= -> ->] | H]; [reflexivity|].
  apply elem_of_cons in H as [[=] | H].
  apply elem_of_cons in H as [[= -> ->] | H]; [reflexivity|].
  apply elem_of_nil in H as [].
Defined.

Lemma operand_value_mono (ev1 ev2 : Event) o :
  ev1 ⊆ ev2 -> operand_value ev1 o = true -> operand_value ev2 o = true.
Proof.
  unfold operand_value. intros Hsub H%bool_decide_eq_true.
  apply bool_decide_eq_true. eapply lookup_weaken; eassumption.
Qed.

Lemma denote_mono tokens (ev1 ev2 : Event) n :
  built_from tokens n -> ev1 ⊆ ev2 ->
  forall b, denote ev1 n = Ret b ->
  exists b', denote ev2 n = Ret b' /\ (b = true -> b' = true).
Proof.
  intros Hn Hsub. revert Hn.
  induction n as [d l r IHl IHr] using Node_ind'.
  destruct d as [o|s], l as [nl|], r as [nr|];
    cbn [built_from from_option] in *; try tauto.
  - intros _ b. cbn [denote]. rewrite !eval_to_bool_operand.
    intros [= <-]. eexists. split; [reflexivity|].
    now apply operand_value_mono.
  - intros (_ & Hl & Hr) b. cbn [denote].
    intros (x & Hx & (y & Hy & (f & Hf & [= <-])%bind_Ret)%bind_Ret)%bind_Ret.
    destruct (IHl Hl x Hx) as (x' & -> & Hxx).
    destruct (IHr Hr y Hy) as (y' & -> & Hyy).
    rewrite Hf. cbn [mbind outcome_bind obind].
    eexists. split; [reflexivity|].
    destruct (process_supported (DStr s)) as [[_ (g & Hg & Hcase)] | [_ Hg]];
      rewrite Hg in Hf; [|discriminate].
    injection Hf as <-.
    destruct Hcase as [-> | ->]; destruct x, y; simpl; intros; try discriminate;
      rewrite ?Hxx, ?Hyy by reflexivity; auto using orb_true_r.
Qed.

(** X17.  Rules have no negation: a tree the builder returned that matches an
    event matches every event that extends it with more fields. *)
Theorem evaluate_monotone tokens t (ev1 ev2 : Event) fuel :
  construct_tree tokens = Ret t -> tree_height t <= fuel ->
  ev1 ⊆ ev2 ->
  evaluate_tree fuel t ev1 = Ret true -> evaluate_tree fuel t ev2 = Ret true.
Proof.
  intros Hbuilt Hfuel Hsub.
  destruct (built_from_construct_tree _ _ Hbuilt) as (n & Hroot & Hn).
  destruct t as [rt]. simpl in Hroot. subst rt.
  unfold tree_height in Hfuel. cbn [root from_option] in Hfuel.
  rewrite !evaluate_tree_denote by (eauto using built_from_full).
  intros H. destruct (denote_mono tokens ev1 ev2 n Hn Hsub true H)
    as (b' & -> & Hb). now rewrite Hb.
Qed.

Lemma evaluate_monotone_witness :
  evaluate_tree 2
    (mkTree (Some (internal "and" (leaf ("a", "1")) (leaf ("b", "2")))))
    (<[ "c" := "3" ]> {[ "a" := "1"; "b" := "2" ]})
  = Ret true.
Proof.
  apply (evaluate_monotone
           [TOperand ("a", "1"); TStr "and"; TOperand ("b", "2")] _
           {[ "a" := "1"; "b" := "2" ]});
    [reflexivity | cbv; lia | | reflexivity].
  apply insert_subseteq. reflexivity.
Defined.

(** ** The sample run *)

Lemma tokenize_sample_condition : tokenize sample_condition = Ret sample_tokens.
Proof. vm_compute. reflexivity. Qed.

Lemma construct_tree_sample_tokens :
  exists n,
    construct_tree sample_tokens = Ret (mkTree (Some n)) /\
    full n /\ height n = 3 /\
    List.map (fun ev => denote ev n) (concat fake_event_sequences)
    = List.map Ret [false; false; false; false; false; true].
Proof.
  eexists. split; [vm_compute; reflexivity|].
  split; [simpl; tauto|]. split; [reflexivity|]. vm_compute. reflexivity.
Qed.

(** X18.  [main] prints [[False, False, False, False, False, True]]: of the
    six events of its four sequences only the last satisfies the sample
    condition. *)
Theorem main_output fuel :
  main (3 + fuel) = Ret [false; false; false; false; false; true].
Proof.
  unfold main. rewrite tokenize_sample_condition.
  cbn [mbind outcome_bind obind].
  destruct construct_tree_sample_tokens as (n & -> & Hfull & Hh & Hd).
  cbn [mbind outcome_bind obind].
  unfold fake_event_sequences in *.
  cbn [concat app comprehension List.map] in *.
  rewrite !evaluate_tree_denote by (assumption || lia).
  injection Hd as -> -> -> -> -> ->. reflexivity.
Qed.

(** ** Sequences on which one reduction per ["or"] suffices *)

Lemma reads_short_reads lv l e : reads_short lv l e -> reads (level_of lv) l e.
Proof.
  induction 1; cbn [level_of] in *; eauto using reads.
Qed.

Lemma well_formed_value ev n : well_formed n -> denote ev n = Ret (value ev n).
Proof.
  intros H. unfold value. destruct (well_formed_denote ev n H) as [b ->].
  reflexivity.
Qed.

Lemma value_internal ev l r :
  well_formed l -> well_formed r ->
  value ev (internal "and" l r) = value ev l && value ev r /\
  value ev (internal "or" l r) = value ev l || value ev r.
Proof.
  intros Hl Hr.
  split; unfold value at 1, internal; cbn [denote];
    rewrite (well_formed_value ev l Hl), (well_formed_value ev r Hr);
    reflexivity.
Qed.

Lemma fold_and_value ev ns : forall z,
  well_formed z -> Forall well_formed ns ->
  well_formed (foldl (fun acc n => internal "and" n acc) z ns) /\
  value ev (foldl (fun acc n => internal "and" n acc) z ns)
  = forallb (value ev) ns && value ev z.
Proof.
  induction ns as [|n ns IH]; intros z Hz Hns; [split; [exact Hz | reflexivity]|].
  apply Forall_cons in Hns as [Hn Hns]. cbn [foldl forallb].
  destruct (IH (internal "and" n z)) as [Hwf Hv]; [|exact Hns|].
  { cbn [internal well_formed]. unfold internal. cbn [well_formed]. auto. }
  split; [exact Hwf|]. rewrite Hv.
  destruct (value_internal ev n z Hn Hz) as [-> _].
  destruct (forallb (value ev) ns), (value ev n), (value ev z); reflexivity.
Qed.

Lemma fold_or_value ev ns : forall z,
  well_formed z -> Forall well_formed ns ->
  well_formed (foldl (fun acc n => internal "or" n acc) z ns) /\
  value ev (foldl (fun acc n => internal "or" n acc) z ns)
  = existsb (value ev) ns || value ev z.
Proof.
  induction ns as [|n ns IH]; intros z Hz Hns; [split; [exact Hz | reflexivity]|].
  apply Forall_cons in Hns as [Hn Hns]. cbn [foldl existsb].
  destruct (IH (internal "or" n z)) as [Hwf Hv]; [|exact Hns|].
  { unfold internal. cbn [well_formed]. auto. }
  split; [exact Hwf|]. rewrite Hv.
  destruct (value_internal ev n z Hn Hz) as [_ ->].
  destruct (existsb (value ev) ns), (value ev n), (value ev z); reflexivity.
Qed.

(** Emptying a stack of ["and"] over ["or"]: one node, the disjunction of
    the nodes under the ["or"] and of the conjunction of those under the
    ["and"]. *)
Lemma empty_the_stack_levels a cs ds rest :
  length cs = S a -> Forall well_formed cs -> Forall well_formed ds ->
  exists m,
    empty_the_stack (replicate a "and" ++ replicate (length ds) "or")
      (cs ++ ds ++ rest) = Ret (m :: rest) /\
    well_formed m /\
    forall ev, value ev m = existsb (value ev) ds || forallb (value ev) cs.
Proof.
  intros Hlen Hcs Hds. destruct cs as [|z cs]; [discriminate|].
  injection Hlen as <-. apply Forall_cons in Hcs as [Hz Hcs].
  exists (foldl (fun acc n => internal "or" n acc)
            (foldl (fun acc n => internal "and" n acc) z cs) ds).
  split; [|split].
  - rewrite <- app_comm_cons. rewrite empty_the_stack_fold.
    rewrite <- (app_nil_r (replicate (length ds) "or")).
    rewrite empty_the_stack_fold. reflexivity.
  - apply (fold_or_value ∅); [|exact Hds]. now apply (fold_and_value ∅).
  - intros ev.
    destruct (fold_and_value ev cs z Hz Hcs) as [Hwf Hv].
    destruct (fold_or_value ev ds _ Hwf Hds) as [_ ->]. rewrite Hv.
    cbn [forallb].
    destruct (existsb (value ev) ds), (forallb (value ev) cs), (value ev z);
      reflexivity.
Qed.

Lemma replicate_no_paren a k :
  Forall (fun s => s <> "(") (replicate a "and" ++ replicate k "or").
Proof.
  apply Forall_app. split; apply Forall_replicate; discriminate.
Qed.

(** The ["or"] token on a stack of one ["and"] at most over ["or"]. *)
Lemma process_token_or a k cs ds ops nodes :
  a <= 1 -> length cs = S a -> head ops <> Some "and" ->
  Forall well_formed cs ->
  exists d,
    process_token (TStr "or")
      (replicate a "and" ++ replicate k "or" ++ ops) (cs ++ ds ++ nodes)
    = Ret (replicate (S k) "or" ++ ops, d :: ds ++ nodes) /\
    well_formed d /\ forall ev, value ev d = forallb (value ev) cs.
Proof.
  intros Ha Hlen Hops Hcs.
  destruct a as [|[|a]]; [| |lia].
  - destruct cs as [|x [|? ?]]; try discriminate.
    apply Forall_cons in Hcs as [Hx _].
    exists x. split; [|split; [exact Hx|]].
    + cbn [replicate app process_token].
      assert (bool_decide (head (replicate k "or" ++ ops) = Some "and") = false)
        as ->.
      { apply bool_decide_eq_false. destruct k; [exact Hops | discriminate]. }
      reflexivity.
    + intros ev. cbn [forallb]. now rewrite andb_true_r.
  - destruct cs as [|y [|x [|? ?]]]; try discriminate.
    apply Forall_cons in Hcs as [Hy Hcs]. apply Forall_cons in Hcs as [Hx _].
    exists (internal "and" x y). split; [reflexivity|]. split.
    + unfold internal. cbn [well_formed]. auto.
    + intros ev. destruct (value_internal ev x y Hx Hy) as [-> _].
      cbn [forallb]. rewrite andb_true_r. apply andb_comm.
Qed.

Lemma reads_short_built lv l e : reads_short lv l e -> built_as lv l e.
Proof.
  induction 1 as [o | l e _ IH | l e _ IH | n l1 e1 l2 e2 _ IH1 _ IH2
                  | n l e _ IH Hn | n l1 e1 l2 e2 _ IH1 _ IH2 Hn
                  | n l e _ IH | n l1 e1 l2 e2 _ IH1 _ IH2];
    intros ops nodes.
  - (* an operand *)
    exists (leaf o). split; [reflexivity|]. split; [exact I|].
    intros ev. unfold value, leaf. cbn [denote].
    rewrite eval_to_bool_operand. reflexivity.
  - (* a group *)
    destruct (IH ("(" :: ops) nodes ltac:(discriminate))
      as (a & k & cs & ds & Heq & Hcs & Hds & Hwc & Hwd & Hv).
    subst k.
    destruct (empty_the_stack_levels a cs ds nodes Hcs Hwc Hwd)
      as (m & Hm & Hwm & Hvm).
    exists m. split; [|split; [exact Hwm|]].
    + cbn [process_tokens].
      change (process_token (TStr "(") ops nodes) with (Ret ("(" :: ops, nodes)).
      cbn [mbind outcome_bind obind]. rewrite process_tokens_app, Heq.
      cbn [mbind outcome_bind obind process_tokens].
      change (process_token (TStr ")") ?o ?n) with (close_paren o n).
      unfold close_paren. rewrite app_assoc.
      rewrite reduce_to_paren_empty by apply replicate_no_paren.
      rewrite Hm. reflexivity.
    + intros ev. rewrite Hvm. apply Hv.
  - (* a conjunction of one atom *)
    destruct (IH ops nodes) as (n & Heq & Hwf & Hv).
    exists 0, [n]. split; [exact Heq|]. repeat split; auto.
    intros ev. cbn [forallb]. rewrite andb_true_r. apply Hv.
  - (* one more atom *)
    destruct (IH1 ops nodes) as (a & cs & Heq & -> & Hlen & Hwf & Hv).
    destruct (IH2 ("and" :: replicate a "and" ++ ops) (cs ++ nodes))
      as (n2 & Heq2 & Hwf2 & Hv2).
    exists (S a), (n2 :: cs). split; [|repeat split].
    + rewrite process_tokens_app, Heq.
      cbn [mbind outcome_bind obind process_tokens].
      change (process_token (TStr "and") ?o ?n) with (Ret ("and" :: o, n)).
      cbn [mbind outcome_bind obind]. exact Heq2.
    + simpl. lia.
    + constructor; assumption.
    + intros ev. cbn [forallb eval_expr]. rewrite Hv2, Hv. apply andb_comm.
  - (* a short conjunction, open to an "or" *)
    intros _. destruct (IH ops nodes) as (a & cs & Heq & -> & Hlen & Hwf & Hv).
    exists a, 0, cs, []. split; [exact Heq|].
    split; [lia|]. split; [exact Hlen|]. split; [reflexivity|].
    split; [exact Hwf|]. split; [constructor|].
    intros ev. cbn [existsb]. apply Hv.
  - (* "or" and one more short conjunction *)
    intros Hops.
    destruct (IH1 ops nodes Hops)
      as (a & k & cs & ds & Heq & Ha & Hlc & Hld & Hwc & Hwd & Hv).
    destruct (process_token_or a k cs ds ops nodes Ha Hlc Hops Hwc)
      as (d & Hor & Hwd0 & Hvd).
    destruct (IH2 (replicate (S k) "or" ++ ops) (d :: ds ++ nodes))
      as (a2 & cs2 & Heq2 & -> & Hlc2 & Hwc2 & Hv2).
    exists a2, (S k), cs2, (d :: ds). split; [|repeat split].
    + rewrite process_tokens_app, Heq.
      cbn [mbind outcome_bind obind process_tokens]. rewrite Hor.
      cbn [mbind outcome_bind obind]. exact Heq2.
    + lia.
    + exact Hlc2.
    + simpl. lia.
    + exact Hwc2.
    + constructor; assumption.
    + intros ev. cbn [existsb eval_expr]. rewrite Hvd, Hv2, <- Hv.
      destruct (forallb (value ev) cs), (existsb (value ev) ds),
        (eval_expr ev e2); reflexivity.
  - (* a conjunction alone *)
    intros _. destruct (IH ops nodes) as (a & cs & Heq & -> & Hlen & Hwf & Hv).
    exists a, 0, cs, []. split; [exact Heq|].
    split; [exact Hlen|]. split; [reflexivity|].
    split; [exact Hwf|]. split; [constructor|].
    intros ev. cbn [existsb]. apply Hv.
  - (* "or" and a last conjunction *)
    intros Hops.
    destruct (IH1 ops nodes Hops)
      as (a & k & cs & ds & Heq & Ha & Hlc & Hld & Hwc & Hwd & Hv).
    destruct (process_token_or a k cs ds ops nodes Ha Hlc Hops Hwc)
      as (d & Hor & Hwd0 & Hvd).
    destruct (IH2 (replicate (S k) "or" ++ ops) (d :: ds ++ nodes))
      as (a2 & cs2 & Heq2 & -> & Hlc2 & Hwc2 & Hv2).
    exists a2, (S k), cs2, (d :: ds). split; [|repeat split].
    + rewrite process_tokens_app, Heq.
      cbn [mbind outcome_bind obind process_tokens]. rewrite Hor.
      cbn [mbind outcome_bind obind]. exact Heq2.
    + exact Hlc2.
    + simpl. lia.
    + exact Hwc2.
    + constructor; assumption.
    + intros ev. cbn [existsb eval_expr]. rewrite Hvd, Hv2, <- Hv.
      destruct (forallb (value ev) cs), (existsb (value ev) ds),
        (eval_expr ev e2); reflexivity.
Qed.

(** X19.  Where the builder does follow the conventional reading: on a
    sequence in which every conjunction that an ["or"] follows has two atoms
    at most, at each parenthesis level, [construct_tree] returns a tree and
    [evaluate] gives it the value of the conventional reading, on every
    event. *)
Theorem construct_tree_short_conjunctions tokens e :
  reads_short SExpr tokens e ->
  reads LDisj tokens e /\
  exists t,
    construct_tree tokens = Ret t /\
    forall ev fuel,
      tree_height t <= fuel -> evaluate_tree fuel t ev = Ret (eval_expr ev e).
Proof.
  intros Hr. split; [exact (reads_short_reads _ _ _ Hr)|].
  destruct (reads_short_built _ _ _ Hr [] [] ltac:(discriminate))
    as (a & k & cs & ds & Heq & Hlc & Hld & Hwc & Hwd & Hv).
  subst k.
  destruct (empty_the_stack_levels a cs ds [] Hlc Hwc Hwd)
    as (m & Hm & Hwm & Hvm).
  exists (mkTree (Some m)). split.
  - unfold construct_tree. rewrite Heq. cbn [mbind outcome_bind obind].
    rewrite !app_nil_r in *. rewrite Hm. reflexivity.
  - intros ev fuel Hfuel.
    rewrite evaluate_tree_denote by (auto using well_formed_full).
    rewrite (well_formed_value ev m Hwm), Hvm, Hv. reflexivity.
Qed.

Lemma construct_tree_short_conjunctions_witness :
  reads LDisj
    [TOperand ("a", "1"); TStr "and"; TOperand ("b", "1"); TStr "or";
     TOperand ("c", "1"); TStr "and"; TOperand ("d", "1"); TStr "and";
     TOperand ("e", "1")]
    (EOr (EAnd (EOperand ("a", "1")) (EOperand ("b", "1")))
         (EAnd (EAnd (EOperand ("c", "1")) (EOperand ("d", "1")))
               (EOperand ("e", "1")))) /\
  exists t,
    construct_tree
      [TOperand ("a", "1"); TStr "and"; TOperand ("b", "1"); TStr "or";
       TOperand ("c", "1"); TStr "and"; TOperand ("d", "1"); TStr "and";
       TOperand ("e", "1")] = Ret t /\
    forall ev fuel,
      tree_height t <= fuel ->
      evaluate_tree fuel t ev
      = Ret (eval_expr ev
               (EOr (EAnd (EOperand ("a", "1")) (EOperand ("b", "1")))
                    (EAnd (EAnd (EOperand ("c", "1")) (EOperand ("d", "1")))
                          (EOperand ("e", "1"))))).
Proof.
  apply construct_tree_short_conjunctions.
  apply (short_last 3
           [TOperand ("a", "1"); TStr "and"; TOperand ("b", "1")] _
           [TOperand ("c", "1"); TStr "and"; TOperand ("d", "1"); TStr "and";
            TOperand ("e", "1")] _).
  - apply (short_open 2); [|lia].
    apply (short_and 1 [TOperand ("a", "1")] _ [TOperand ("b", "1")] _).
    + apply short_atom, short_operand.
    + apply short_operand.
  - apply (short_and 2
             [TOperand ("c", "1"); TStr "and"; TOperand ("d", "1")] _
             [TOperand ("e", "1")] _).
    + apply (short_and 1 [TOperand ("c", "1")] _ [TOperand ("d", "1")] _).
      * apply short_atom, short_operand.
      * apply short_operand.
    + apply short_operand.
Defined.

(** X20.  The [node] argument selects a subtree: on a node whose descendants
    all have no child or two, [evaluate(fes, node)] gives what evaluating a
    tree rooted at that node gives, whatever the root of [self] is. *)
Theorem evaluate_subtree fuel n t ev :
  full n -> height n <= fuel ->
  (evaluate fuel (Some n) (mkStore t ev)).1
  = evaluate_tree fuel (mkTree (Some n)) ev.
Proof.
  intros Hfull Hh. rewrite evaluate_tree_denote by assumption.
  rewrite evaluate_denote by assumption. reflexivity.
Qed.

Lemma evaluate_subtree_witness :
  (evaluate 1 (Some (leaf ("b", "2")))
     (mkStore (mkTree (Some (internal "and" (leaf ("a", "1")) (leaf ("b", "2")))))
        {[ "b" := "2" ]})).1
  = evaluate_tree 1 (mkTree (Some (leaf ("b", "2")))) {[ "b" := "2" ]}.
Proof. apply evaluate_subtree; [exact I | cbv; lia]. Defined.
